(** * Cached tree crawler (scraper.py): a shallow embedding and its properties

    The program walks a tree of JSON documents served over HTTP and
    materialises it on local storage.  It has two functions of interest,
    [load_or_download] (resolve one resource from disk or from the network)
    and [download_data] (the recursive visitor), plus the entry point [main].

    Modelling choices, all taken from the source text:
    - the file system is a finite map from path strings to file contents;
      paths are compared literally and no path of a file has a NUL byte in
      it; directories are not stored: [os.makedirs] fails where a stored
      file sits at the directory or above it, and is otherwise recorded as
      an event;
    - the library calls fail as Python's do on the arguments the program
      can give them: [time.sleep] refuses a negative length, [os.makedirs]
      and [open] refuse a path with a NUL byte, all three with
      [ValueError], which the call sites catch; [sess.get] raises either an
      exception that is no [ValueError] (no connection, a timeout) or one of
      the subclasses of [ValueError] that [requests] has (an invalid URL);
    - a file or an HTTP body is either the serialisation of a JSON value or
      text that [json] cannot parse; [json.load] of what [json.dump] wrote
      gives the value back;
    - JSON values are untyped, as in Python: field accesses on the wrong
      shape raise [KeyError], [TypeError], ... in the order the source
      evaluates them; JSON numbers are integers;
    - every observable effect (existence probe, file read, GET, sleep,
      makedirs, file write) is appended to a trace, in program order;
      logging calls are not modelled;
    - the upstream service is a function of the number of requests issued
      so far and of the URL, so that it may change over time;
    - Python exceptions are values of [exn]; [json.JSONDecodeError] is a
      subclass of [ValueError] (Python's [json] module), which [is_ValueError]
      records;
    - the two [while True] loops and the recursion take fuel; running out of
      fuel is the outcome [Diverge], distinct from returning and raising. *)

From Stdlib Require Import ZArith QArith_base Ascii.
From stdpp Require Import base gmap strings list pretty.

Local Open Scope string_scope.
Local Open Scope list_scope.
Local Open Scope stdpp_scope.
Set Warnings "-register-all".

(** ** Python strings and paths *)

Module Py.

(** [s.replace(a, b)] for one-character [a] and [b]. *)
Fixpoint str_replace (a b : ascii) (s : string) : string :=
  match s with
  | EmptyString => EmptyString
  | String c s' =>
      String (if Ascii.eqb c a then b else c) (str_replace a b s')
  end.

(** [s.startswith(p)]. *)
Fixpoint startswith (p s : string) : bool :=
  match p, s with
  | EmptyString, _ => true
  | String a p', String b s' => Ascii.eqb a b && startswith p' s'
  | String _ _, EmptyString => false
  end.

(** [s.endswith('/')]. *)
Fixpoint endswith_sep (s : string) : bool :=
  match s with
  | EmptyString => false
  | String c EmptyString => Ascii.eqb c "/"
  | String _ s' => endswith_sep s'
  end.

(** One step of [posixpath.join]: an absolute component resets the path,
    an empty path or one that ends in the separator takes the component
    as it is, and otherwise a separator is inserted. *)
Definition join2 (path b : string) : string :=
  if startswith "/" b then b
  else if bool_decide (path = "") || endswith_sep path then path +:+ b
  else path +:+ "/" +:+ b.

(** [os.path.join(a, *p)]. *)
Definition os_path_join (a : string) (p : list string) : string :=
  foldl join2 a p.

(** ['/'.join(args)], the source's [urljoin]. *)
Fixpoint urljoin (args : list string) : string :=
  match args with
  | [] => ""
  | [a] => a
  | a :: rest => a +:+ "/" +:+ urljoin rest
  end.

(** [posixpath.dirname]: the part up to the last separator, with trailing
    separators removed unless it consists of separators only. *)
Fixpoint drop_to_sep (r : list ascii) : list ascii :=
  match r with
  | [] => []
  | c :: r' => if Ascii.eqb c "/" then r else drop_to_sep r'
  end.

Fixpoint strip_sep (r : list ascii) : list ascii :=
  match r with
  | [] => []
  | c :: r' => if Ascii.eqb c "/" then strip_sep r' else r
  end.

Definition os_path_dirname (p : string) : string :=
  let head := drop_to_sep (reverse (String.list_ascii_of_string p)) in
  match strip_sep head with
  | [] => String.string_of_list_ascii (reverse head)
  | stripped => String.string_of_list_ascii (reverse stripped)
  end.

End Py.

(** The character [c] occurs in [s]. *)
Fixpoint occurs (c : ascii) (s : string) : bool :=
  match s with
  | EmptyString => false
  | String c' s' => Ascii.eqb c' c || occurs c s'
  end.

(** The NUL byte, which no path may contain. *)
Definition NUL : ascii := Ascii.zero.

(** ** JSON values, as [json.load] returns them *)

Inductive json : Type :=
  | JNull
  | JBool (b : bool)
  | JNum (z : Z)
  | JStr (s : string)
  | JArr (items : list json)
  | JObj (fields : list (string * json)).

(** The content of a file or of an HTTP body. *)
Inductive text : Type :=
  | Json (j : json)
  | Garbage (s : string).

Definition json_dumps (j : json) : text := Json j.

Definition json_loads (t : text) : option json :=
  match t with
  | Json j => Some j
  | Garbage _ => None
  end.

(** ** Exceptions and outcomes *)

Inductive exn : Type :=
  | ValueError (msg : string)
  | JSONDecodeError
  | AssertionError
  | KeyError
  | TypeError
  | AttributeError
  | IndexError
  | FileNotFoundError
  | OSError
  | ConnectionError
  | InvalidURL.

(** What [except ValueError] catches: [ValueError] and its subclasses,
    [json.JSONDecodeError] and the exceptions of [requests] that derive from
    it ([InvalidURL], [InvalidSchema], [MissingSchema], [InvalidHeader]),
    for which [InvalidURL] stands.  [OSError] stands for [FileExistsError]
    and [NotADirectoryError]; [ConnectionError] for the exceptions of
    [requests] that are no [ValueError]. *)
Definition is_ValueError (e : exn) : bool :=
  match e with
  | ValueError _ | JSONDecodeError | InvalidURL => true
  | _ => false
  end.

(** What [except json.JSONDecodeError] catches. *)
Definition is_JSONDecodeError (e : exn) : bool :=
  match e with
  | JSONDecodeError => true
  | _ => false
  end.

Inductive outcome (A : Type) : Type :=
  | Ok (a : A)
  | Raise (e : exn)
  | Diverge.

Arguments Ok {A} a.
Arguments Raise {A} e.
Arguments Diverge {A}.

(** ** The world: storage, upstream and the trace of effects *)

(** What [sess.get(url)] does: it returns a response with a body, or it
    raises an exception that is no [ValueError] ([Unreachable]), or it
    raises one that is ([Rejected]). *)
Inductive response : Type :=
  | Body (t : text)
  | Unreachable
  | Rejected.

Inductive event : Type :=
  | EvExists (path : string) (found : bool)
  | EvRead (path : string)
  | EvGet (url : string) (r : response)
  | EvSleep (secs : Q)
  | EvMakedirs (dir : string)
  | EvWrite (path : string) (t : text).

Record world : Type := World {
  fs : gmap string text;
  trace : list event
}.

(** The upstream as seen through a [requests.Session]: the answer to a GET
    depends on the URL and on how many requests were issued before it. *)
Definition session : Type := nat → string → response.

Definition is_get (e : event) : bool :=
  match e with EvGet _ _ => true | _ => false end.

Definition requests_so_far (w : world) : nat :=
  length (filter (λ e, is_get e = true) (trace w)).

Definition log (e : event) (w : world) : world :=
  World (fs w) (trace w ++ [e]).

(** ** A state-and-exception monad *)

Definition M (A : Type) : Type := world → outcome A * world.

Definition ret {A} (a : A) : M A := λ w, (Ok a, w).
Definition raise {A} (e : exn) : M A := λ w, (Raise e, w).
Definition diverge {A} : M A := λ w, (Diverge, w).

Definition bind {A B} (m : M A) (k : A → M B) : M B :=
  λ w, match m w with
       | (Ok a, w') => k a w'
       | (Raise e, w') => (Raise e, w')
       | (Diverge, w') => (Diverge, w')
       end.

Notation "x <- c1 ;; c2" := (bind c1 (λ x, c2))
  (at level 100, c1 at next level, right associativity).
Notation "c1 ;; c2" := (bind c1 (λ _, c2))
  (at level 100, right associativity).

(** [try: body  except <catches>: handler]. *)
Definition try_except {A} (body : M A) (catches : exn → bool)
    (handler : M A) : M A :=
  λ w, match body w with
       | (Raise e, w') => if catches e then handler w' else (Raise e, w')
       | r => r
       end.

(** [for x in l: body x]. *)
Fixpoint for_each {A} (l : list A) (body : A → M unit) : M unit :=
  match l with
  | [] => ret tt
  | x :: l' => body x ;; for_each l' body
  end.

(** [assert b]. *)
Definition py_assert (b : bool) : M unit :=
  if b then ret tt else raise AssertionError.

(** ** Primitives *)

(** [os.path.exists(path)].  A path with a NUL byte is the path of no file,
    and Python answers [False] for it. *)
Definition os_path_exists (path : string) : M bool :=
  λ w, let found := bool_decide (is_Some (fs w !! path)) in
       (Ok found, log (EvExists path found) w).

(** [with open(path) as f: json.load(f)]. *)
Definition json_load_file (path : string) : M json :=
  λ w, match fs w !! path with
       | None => (Raise FileNotFoundError, w)
       | Some t =>
           match json_loads t with
           | Some j => (Ok j, log (EvRead path) w)
           | None => (Raise JSONDecodeError, log (EvRead path) w)
           end
       end.

(** [sess.get(url).json()]. *)
Definition sess_get_json (sess : session) (url : string) : M json :=
  λ w, let r := sess (requests_so_far w) url in
       let w' := log (EvGet url r) w in
       match r with
       | Unreachable => (Raise ConnectionError, w')
       | Rejected => (Raise InvalidURL, w')
       | Body t =>
           match json_loads t with
           | Some j => (Ok j, w')
           | None => (Raise JSONDecodeError, w')
           end
       end.

(** [time.sleep(secs)]: a negative length is refused. *)
Definition time_sleep (secs : Q) : M unit :=
  λ w, if Qle_bool 0 secs then (Ok tt, log (EvSleep secs) w)
       else (Raise (ValueError "sleep length must be non-negative"), w).

(** A stored file sits at [dir] or at one of the directories above it,
    [n] levels up at most. *)
Fixpoint file_at_or_above (n : nat) (files : gmap string text)
    (dir : string) : bool :=
  match n with
  | O => false
  | S n' =>
      bool_decide (is_Some (files !! dir))
      || file_at_or_above n' files (Py.os_path_dirname dir)
  end.

(** No directory can be made at [dir]: a file is in the way. *)
Definition blocked (files : gmap string text) (dir : string) : bool :=
  file_at_or_above (S (String.length dir)) files dir.

Arguments blocked : simpl never.

(** [os.makedirs(dir, exist_ok=True)]: [ValueError] for a path with a NUL
    byte, [FileNotFoundError] for the empty path, [FileExistsError] or
    [NotADirectoryError] where a file is in the way. *)
Definition os_makedirs (dir : string) : M unit :=
  λ w, if occurs NUL dir then
         (Raise (ValueError "embedded null byte"), w)
       else if bool_decide (dir = "") then (Raise FileNotFoundError, w)
       else if blocked (fs w) dir then (Raise OSError, w)
       else (Ok tt, log (EvMakedirs dir) w).

(** [with open(path, 'w') as f: json.dump(data, f)]: [ValueError] for a
    path with a NUL byte, [NotADirectoryError] where a file is in the way
    of the directory of [path]. *)
Definition json_dump_file (data : json) (path : string) : M unit :=
  λ w, let t := json_dumps data in
       if occurs NUL path then
         (Raise (ValueError "embedded null byte"), w)
       else if blocked (fs w) (Py.os_path_dirname path) then
         (Raise OSError, w)
       else
         (Ok tt, World (<[path := t]> (fs w)) (trace w ++ [EvWrite path t])).

(** ** Constants of the module *)

Definition BASE_URL : string :=
  "https://2022electionresults.comelec.gov.ph/data".
Definition BASE_DIR : string := "data".
Definition RETRY_WAIT : Q := 1 # 1.

(** ** [load_or_download] *)

Definition load_or_download (sess : session) (file_path url : string)
    (download_delay : Q) : M json :=
  found <- os_path_exists file_path ;;
  if found : bool then
    json_load_file file_path
  else
    data <- try_except
              (data <- sess_get_json sess url ;;
               time_sleep download_delay ;;
               ret data)
              is_JSONDecodeError
              (raise (ValueError "Results not available.")) ;;
    let file_path := Py.str_replace "*" "_" file_path in
    os_makedirs (Py.os_path_dirname file_path) ;;
    json_dump_file data file_path ;;
    ret data.

(** ** Python's dynamic operations on JSON values

    Each raises what Python raises on a value of the wrong shape. *)

Fixpoint assoc (k : string) (fields : list (string * json)) : option json :=
  match fields with
  | [] => None
  | (k', v) :: rest => if bool_decide (k' = k) then Some v else assoc k rest
  end.

(** [j[k]] for a string key. *)
Definition getitem (j : json) (k : string) : M json :=
  match j with
  | JObj fields =>
      match assoc k fields with
      | Some v => ret v
      | None => raise KeyError
      end
  | _ => raise TypeError
  end.

(** [j[0]]. *)
Definition getitem0 (j : json) : M json :=
  match j with
  | JArr (v :: _) => ret v
  | JArr [] => raise IndexError
  | JStr (String c _) => ret (JStr (String c EmptyString))
  | JStr EmptyString => raise IndexError
  | JObj _ => raise KeyError
  | _ => raise TypeError
  end.

(** [j.values()]. *)
Definition dict_values (j : json) : M (list json) :=
  match j with
  | JObj fields => ret (map snd fields)
  | _ => raise AttributeError
  end.

Fixpoint chars (s : string) : list json :=
  match s with
  | EmptyString => []
  | String c s' => JStr (String c EmptyString) :: chars s'
  end.

(** The items [for x in j] visits, when [j] is iterable: the elements of a
    list, the keys of a dict, the characters of a string. *)
Definition json_items (j : json) : option (list json) :=
  match j with
  | JArr items => Some items
  | JObj fields => Some (map (λ kv, JStr (fst kv)) fields)
  | JStr s => Some (chars s)
  | _ => None
  end.

Definition py_iter (j : json) : M (list json) :=
  match json_items j with
  | Some items => ret items
  | None => raise TypeError
  end.

(** [len(j)], when [j] has a length. *)
Definition json_len (j : json) : option nat :=
  match j with
  | JArr items => Some (length items)
  | JObj fields => Some (length fields)
  | JStr s => Some (String.length s)
  | _ => None
  end.

Definition py_len (j : json) : M nat :=
  match json_len j with
  | Some n => ret n
  | None => raise TypeError
  end.

(** [j.replace('/', '_')]. *)
Definition replace_slash (j : json) : M string :=
  match j with
  | JStr s => ret (Py.str_replace "/" "_" s)
  | _ => raise AttributeError
  end.

(** [j + '.json']. *)
Definition add_json_suffix (j : json) : M string :=
  match j with
  | JStr s => ret (s +:+ ".json")
  | _ => raise TypeError
  end.

(** [j == s] for a string literal [s]. *)
Definition eq_str (j : json) (s : string) : bool :=
  match j with
  | JStr s' => bool_decide (s' = s)
  | _ => false
  end.

Definition hashable (j : json) : bool :=
  match j with
  | JArr _ | JObj _ => false
  | _ => true
  end.

(** [==] on hashable values ([True == 1] and [False == 0] in Python). *)
Definition key_eqb (a b : json) : bool :=
  match a, b with
  | JNull, JNull => true
  | JStr s, JStr t => bool_decide (s = t)
  | JNum x, JNum y => Z.eqb x y
  | JBool x, JBool y => Bool.eqb x y
  | JBool x, JNum y | JNum y, JBool x => Z.eqb (if x then 1 else 0) y
  | _, _ => false
  end.

(** [set(map(itemgetter('cc'), rows))], built row by row as [set] consumes
    the iterator.  The set is kept as a list in order of first occurrence;
    Python leaves the iteration order of a set unspecified. *)
Fixpoint set_of_cc (rows : list json) (acc : list json) : M (list json) :=
  match rows with
  | [] => ret acc
  | row :: rows' =>
      cc <- getitem row "cc" ;;
      if hashable cc then
        set_of_cc rows' (if existsb (key_eqb cc) acc then acc else acc ++ [cc])
      else raise TypeError
  end.

(** [f'{contest}'] for a hashable JSON value. *)
Definition format_value (j : json) : string :=
  match j with
  | JStr s => s
  | JNum z => pretty z
  | JBool true => "True"
  | JBool false => "False"
  | JNull => "None"
  | _ => ""
  end.

(** ** [download_data] *)

(** The loop of lines 59-66 and 95-104:
    [while True: try: attempt; break  except ValueError: sleep(RETRY_WAIT)]. *)
Fixpoint retry_forever {A} (fuel : nat) (attempt : M A) : M A :=
  match fuel with
  | O => diverge
  | S fuel' =>
      try_except attempt is_ValueError
        (time_sleep RETRY_WAIT ;; retry_forever fuel' attempt)
  end.

Definition contest_path (contest : json) : string :=
  Py.os_path_join BASE_DIR ["contests"; format_value contest +:+ ".json"].

Definition contest_url (contest : json) : string :=
  Py.urljoin [BASE_URL; "contests"; format_value contest +:+ ".json"].

(** Lines 91-104, the body of [for contest in contests]. *)
Definition download_contest (fuel : nat) (sess : session)
    (download_delay : Q) (contest : json) : M unit :=
  retry_forever fuel
    (load_or_download sess (contest_path contest) (contest_url contest)
       download_delay) ;;
  ret tt.

(** The handler of lines 82-86 and 115-118:
    [try: attempt  except ValueError: continue]; [None] stands for the
    [continue]. *)
Definition attempt_once {A} (attempt : M A) : M (option A) :=
  try_except (a <- attempt ;; ret (Some a)) is_ValueError (ret None).

Definition precinct_path (node_dir file_name : string) : string :=
  Py.os_path_join BASE_DIR ["results"; node_dir; file_name].

Definition coc_path (node_dir : string) : string :=
  Py.os_path_join BASE_DIR ["results"; node_dir; "coc.json"].

Definition results_url (url : string) : string :=
  Py.urljoin [BASE_URL; "results"; url].

(** Lines 88-104: what the precinct loop does with a return it obtained. *)
Definition download_contests_of (fuel : nat) (sess : session)
    (download_delay : Q) (precinct_results : json) : M unit :=
  rs <- getitem precinct_results "rs" ;;
  rows <- py_iter rs ;;
  contests <- set_of_cc rows [] ;;
  for_each contests (download_contest fuel sess download_delay).

(** Lines 76-104, the body of [for precinct in node_info['pps']]. *)
Definition download_precinct (fuel : nat) (sess : session)
    (node_dir : string) (download_delay : Q) (precinct : json) : M unit :=
  ppcc <- getitem precinct "ppcc" ;;
  file_name <- add_json_suffix ppcc ;;
  vbs <- getitem precinct "vbs" ;;
  n <- py_len vbs ;;
  py_assert (Nat.eqb n 1) ;;
  vbs <- getitem precinct "vbs" ;;
  vb <- getitem0 vbs ;;
  url <- getitem vb "url" ;;
  url <- add_json_suffix url ;;
  r <- attempt_once
         (load_or_download sess (precinct_path node_dir file_name)
            (results_url url) download_delay) ;;
  match r with
  | None => ret tt
  | Some precinct_results =>
      download_contests_of fuel sess download_delay precinct_results
  end.

(** Lines 111-118, the body of [for coc in node_info['pps']]. *)
Definition download_coc (sess : session) (node_dir : string)
    (download_delay : Q) (coc : json) : M unit :=
  vbs <- getitem coc "vbs" ;;
  n <- py_len vbs ;;
  py_assert (Nat.eqb n 1) ;;
  vbs <- getitem coc "vbs" ;;
  vb <- getitem0 vbs ;;
  url <- getitem vb "url" ;;
  url <- add_json_suffix url ;;
  attempt_once
    (load_or_download sess (coc_path node_dir) (results_url url)
       download_delay) ;;
  ret tt.

(** Lines 74-118, what a node does after its children are done. *)
Definition terminal_data (fuel : nat) (sess : session) (node_dir : string)
    (download_delay : Q) (node_info : json) : M unit :=
  can <- getitem node_info "can" ;;
  if eq_str can "Barangay" then
    pps <- getitem node_info "pps" ;;
    precincts <- py_iter pps ;;
    for_each precincts (download_precinct fuel sess node_dir download_delay)
  else
    can <- getitem node_info "can" ;;
    ok <- (if eq_str can "Country" then ret true
           else pps <- getitem node_info "pps" ;;
                n <- py_len pps ;;
                ret (Nat.ltb n 2)) ;;
    py_assert ok ;;
    pps <- getitem node_info "pps" ;;
    cocs <- py_iter pps ;;
    for_each cocs (download_coc sess node_dir download_delay).

Definition info_path (node_dir : string) : string :=
  Py.os_path_join BASE_DIR ["results"; node_dir; "info.json"].

Definition info_url (node_url : string) : string :=
  Py.urljoin [BASE_URL; "regions"; node_url].

(** Lines 70-72, the body of [for child in node_info['srs'].values()];
    [recur] is the recursive call. *)
Definition visit_child (recur : string → string → M unit)
    (node_dir : string) (child : json) : M unit :=
  rn <- getitem child "rn" ;;
  rn <- replace_slash rn ;;
  let child_dir := Py.os_path_join node_dir [rn] in
  url <- getitem child "url" ;;
  url <- add_json_suffix url ;;
  recur child_dir url.

(** Lines 68-118, what [download_data] does once [node_info] is bound. *)
Definition visit_node (recur : string → string → M unit) (fuel : nat)
    (sess : session) (node_dir : string) (download_delay : Q)
    (node_info : json) : M unit :=
  srs <- getitem node_info "srs" ;;
  children <- dict_values srs ;;
  for_each children (visit_child recur node_dir) ;;
  terminal_data fuel sess node_dir download_delay node_info.

Fixpoint download_data (fuel : nat) (sess : session)
    (node_dir node_url : string) (download_delay : Q) : M unit :=
  match fuel with
  | O => diverge
  | S fuel' =>
      node_info <- retry_forever fuel'
                     (load_or_download sess (info_path node_dir)
                        (info_url node_url) download_delay) ;;
      visit_node (λ dir url, download_data fuel' sess dir url download_delay)
        fuel' sess node_dir download_delay node_info
  end.

(** [main]: the option [base_dir] is received; the function binds a local
    [BASE_DIR = 'data'] (line 131) that nothing reads, and [download_data]
    goes on reading the module constant. *)
Definition main (fuel : nat) (sess : session) (base_dir : string)
    (download_delay : Q) (log_level : string) : M unit :=
  let BASE_DIR := "data" in
  download_data fuel sess "" "root.json" download_delay.

(** ** Worked example

    The end-to-end scenario: a [Region] root with one child [A], a
    [Barangay] with one precinct whose return names contest [C1] twice. *)

Module Scenario.

Definition root_info : json :=
  JObj [("can", JStr "Region");
        ("srs", JObj [("1", JObj [("rn", JStr "A"); ("url", JStr "a")])]);
        ("pps", JArr [])].

Definition a_info : json :=
  JObj [("can", JStr "Barangay");
        ("srs", JObj []);
        ("pps", JArr [JObj [("ppcc", JStr "p1");
                            ("vbs", JArr [JObj [("url", JStr "res1")]])]])].

Definition res1 : json :=
  JObj [("rs", JArr [JObj [("cc", JStr "C1")]; JObj [("cc", JStr "C1")]])].

Definition c1 : json := JObj [("cn", JStr "President")].

Definition upstream : session := λ _ url,
  if bool_decide (url = BASE_URL +:+ "/regions/root.json") then
    Body (Json root_info)
  else if bool_decide (url = BASE_URL +:+ "/regions/a.json") then
    Body (Json a_info)
  else if bool_decide (url = BASE_URL +:+ "/results/res1.json") then
    Body (Json res1)
  else if bool_decide (url = BASE_URL +:+ "/contests/C1.json") then
    Body (Json c1)
  else Body (Garbage "<html>404</html>").

Definition empty_world : world := World ∅ [].

Definition not_found : response := Body (Garbage "<html>404</html>").




(** A terminal-data reference with one voting board. *)
Definition reference (ppcc url : string) : json :=
  JObj [("ppcc", JStr ppcc); ("vbs", JArr [JObj [("url", JStr url)]])].

(** A storage in which the file at [path] is damaged. *)
Definition damaged (path : string) : world :=
  World {[ path := Garbage "{" ]} [].

(** A tree that is a single [Barangay] with two precincts, none of whose
    returns is published. *)
Definition lone_barangay : json :=
  JObj [("can", JStr "Barangay");
        ("srs", JObj []);
        ("pps", JArr [reference "p1" "res8"; reference "p2" "res9"])].

Definition early : session := λ _ url,
  if bool_decide (url = BASE_URL +:+ "/regions/root.json") then
    Body (Json lone_barangay)
  else not_found.

(** A tree that is a single [Barangay] whose precinct code contains an
    asterisk; everything is published and nothing ever changes. *)
Definition starred_barangay : json :=
  JObj [("can", JStr "Barangay");
        ("srs", JObj []);
        ("pps", JArr [reference "0001*A" "er1"])].

Definition er1 : json := JObj [("rs", JArr [])].

Definition starred : session := λ _ url,
  if bool_decide (url = BASE_URL +:+ "/regions/root.json") then
    Body (Json starred_barangay)
  else if bool_decide (url = BASE_URL +:+ "/results/er1.json") then
    Body (Json er1)
  else not_found.

(** A [Region] root with one child named [A*], a [Country] with two
    certificates of canvass, both published. *)
Definition starred_root : json :=
  JObj [("can", JStr "Region");
        ("srs", JObj [("1", JObj [("rn", JStr "A*"); ("url", JStr "a")])]);
        ("pps", JArr [])].

Definition country : json :=
  JObj [("can", JStr "Country");
        ("srs", JObj []);
        ("pps", JArr [reference "c1" "coc1"; reference "c2" "coc2"])].

Definition coc1 : json := JObj [("rs", JStr "first")].
Definition coc2 : json := JObj [("rs", JStr "second")].

Definition two_certificates : session := λ _ url,
  if bool_decide (url = BASE_URL +:+ "/regions/root.json") then
    Body (Json starred_root)
  else if bool_decide (url = BASE_URL +:+ "/regions/a.json") then
    Body (Json country)
  else if bool_decide (url = BASE_URL +:+ "/results/coc1.json") then
    Body (Json coc1)
  else if bool_decide (url = BASE_URL +:+ "/results/coc2.json") then
    Body (Json coc2)
  else not_found.

(** A [Region] root with two leaves [A] and [B], each a [Barangay] with
    one precinct; both election returns name the contest [C*1]; everything
    is published and nothing ever changes. *)
Definition two_leaves : json :=
  JObj [("can", JStr "Region");
        ("srs", JObj [("1", JObj [("rn", JStr "A"); ("url", JStr "a")]);
                      ("2", JObj [("rn", JStr "B"); ("url", JStr "b")])]);
        ("pps", JArr [])].

Definition leaf (ppcc url : string) : json :=
  JObj [("can", JStr "Barangay");
        ("srs", JObj []);
        ("pps", JArr [reference ppcc url])].

Definition er_starred : json := JObj [("rs", JArr [JObj [("cc", JStr "C*1")]])].

Definition starred_contest : session := λ _ url,
  if bool_decide (url = BASE_URL +:+ "/regions/root.json") then
    Body (Json two_leaves)
  else if bool_decide (url = BASE_URL +:+ "/regions/a.json") then
    Body (Json (leaf "p1" "er_a"))
  else if bool_decide (url = BASE_URL +:+ "/regions/b.json") then
    Body (Json (leaf "p2" "er_b"))
  else if bool_decide (url = BASE_URL +:+ "/results/er_a.json") then
    Body (Json er_starred)
  else if bool_decide (url = BASE_URL +:+ "/results/er_b.json") then
    Body (Json er_starred)
  else if bool_decide (url = BASE_URL +:+ "/contests/C*1.json") then
    Body (Json c1)
  else not_found.

(** The upstream of the worked example, on which the contest document is
    not yet there at the fourth request, the first one made for it. *)
Definition contest_late : session := λ n url,
  if Nat.eqb n 3 then not_found else upstream n url.

(** A root descriptor that has no [srs] field. *)
Definition childless : json := JObj [("can", JStr "Region"); ("pps", JArr [])].

Definition truncated : session := λ _ url,
  if bool_decide (url = BASE_URL +:+ "/regions/root.json") then
    Body (Json childless)
  else not_found.

(** The child [A] with a precinct that names two voting boards. *)
Definition two_boards : json :=
  JObj [("ppcc", JStr "p1");
        ("vbs", JArr [JObj [("url", JStr "res1")];
                      JObj [("url", JStr "res2")]])].

Definition a_info_two_boards : json :=
  JObj [("can", JStr "Barangay");
        ("srs", JObj []);
        ("pps", JArr [two_boards])].

Definition schema_drift : session := λ _ url,
  if bool_decide (url = BASE_URL +:+ "/regions/root.json") then
    Body (Json root_info)
  else if bool_decide (url = BASE_URL +:+ "/regions/a.json") then
    Body (Json a_info_two_boards)
  else not_found.

End Scenario.

(** * Vocabulary of the statements *)


(** The trace of a successful fetch. *)
Definition fetched (path url : string) (r : response) (d : Q) (j : json)
    : list event :=
  [EvExists path false; EvGet url r; EvSleep d;
   EvMakedirs (Py.os_path_dirname (Py.str_replace "*" "_" path));
   EvWrite (Py.str_replace "*" "_" path) (Json j)].

(** What stands in the way of storing at [path] a body that parsed, with
    the effects that follow the request before the failure; [None] when
    nothing does.  The order is that of lines 30 to 38: the sleep, the
    directory, the file. *)
Definition store_failure (d : Q) (files : gmap string text) (path : string)
    : option (exn * list event) :=
  let path' := Py.str_replace "*" "_" path in
  let dir := Py.os_path_dirname path' in
  if negb (Qle_bool 0 d) then
    Some (ValueError "sleep length must be non-negative", [])
  else if occurs NUL dir then
    Some (ValueError "embedded null byte", [EvSleep d])
  else if bool_decide (dir = "") then Some (FileNotFoundError, [EvSleep d])
  else if blocked files dir then Some (OSError, [EvSleep d])
  else if occurs NUL path' then
    Some (ValueError "embedded null byte", [EvSleep d; EvMakedirs dir])
  else None.

(** The resolver, on a path that it does not find and with the answer
    [resp] to its request, raises [e] after the effects [done]. *)
Definition failed_fetch (d : Q) (files : gmap string text) (path : string)
    (resp : response) (e : exn) (done : list event) : Prop :=
  match resp with
  | Body (Json _) => store_failure d files path = Some (e, done)
  | Body (Garbage _) => e = ValueError "Results not available." ∧ done = []
  | Unreachable => e = ConnectionError ∧ done = []
  | Rejected => e = InvalidURL ∧ done = []
  end.


(** Read-only views of a descriptor, used to state the shape of the input. *)
Definition field (j : json) (k : string) : option json :=
  match j with
  | JObj fields => assoc k fields
  | _ => None
  end.

(** The locator of the voting board of a terminal-data reference that has
    exactly one. *)
Definition single_vb_url (ref : json) : option string :=
  match field ref "vbs" with
  | Some (JArr [vb]) =>
      match field vb "url" with
      | Some (JStr u) => Some u
      | _ => None
      end
  | _ => None
  end.

(** The trace of [k] turns of the retry loop on a file that does not
    parse. *)
Fixpoint failed_reads (path : string) (k : nat) : list event :=
  match k with
  | O => []
  | S k' =>
      [EvExists path true; EvRead path; EvSleep RETRY_WAIT]
      ++ failed_reads path k'
  end.

(** The number of voting boards of a terminal-data reference. *)
Definition vb_count (ref : json) : option nat :=
  match field ref "vbs" with
  | Some vbs => json_len vbs
  | None => None
  end.

(** The terminal-data handling of a node, started in world [w], reaches a
    failing assertion in world [w']: the guard of line 108, or the check of
    line 79 or 113 on a reference that the loop reaches, the references
    before it having been handled. *)
Inductive assertion_reached (sess : session) (d : Q) (fuel : nat)
    (dir : string) (info : json) (w : world) : world → Prop :=
  | too_many_references can pps n :
      field info "can" = Some can →
      eq_str can "Barangay" = false →
      eq_str can "Country" = false →
      field info "pps" = Some pps →
      json_len pps = Some n →
      (2 ≤ n)%nat →
      assertion_reached sess d fuel dir info w w
  | bad_precinct can pps pre bad post ppcc n w' :
      field info "can" = Some can →
      eq_str can "Barangay" = true →
      field info "pps" = Some pps →
      json_items pps = Some (pre ++ bad :: post) →
      for_each pre (download_precinct fuel sess dir d) w = (Ok tt, w') →
      field bad "ppcc" = Some (JStr ppcc) →
      vb_count bad = Some n →
      n ≠ 1 →
      assertion_reached sess d fuel dir info w w'
  | bad_certificate can pps pre bad post n w' :
      field info "can" = Some can →
      eq_str can "Barangay" = false →
      eq_str can "Country" = true ∨ (∃ m, json_len pps = Some m ∧ (m < 2)%nat) →
      field info "pps" = Some pps →
      json_items pps = Some (pre ++ bad :: post) →
      for_each pre (download_coc sess dir d) w = (Ok tt, w') →
      vb_count bad = Some n →
      n ≠ 1 →
      assertion_reached sess d fuel dir info w w'.

(** The visit of node [(dir, url)], started in world [w], reaches a failing
    assertion in world [w'], at this node or at a node below it. *)
Inductive visit_reaches_assertion (sess : session) (d : Q) :
    nat → string → string → world → world → Prop :=
  | at_this_node fuel dir url w info children w1 w2 w3 :
      retry_forever fuel
        (load_or_download sess (info_path dir) (info_url url) d) w
        = (Ok info, w1) →
      field info "srs" = Some (JObj children) →
      for_each (map snd children)
        (visit_child (λ dir' url', download_data fuel sess dir' url' d) dir)
        w1 = (Ok tt, w2) →
      assertion_reached sess d fuel dir info w2 w3 →
      visit_reaches_assertion sess d (S fuel) dir url w w3
  | below_this_node fuel dir url w info children pre child post rn u
        w1 w2 w3 :
      retry_forever fuel
        (load_or_download sess (info_path dir) (info_url url) d) w
        = (Ok info, w1) →
      field info "srs" = Some (JObj children) →
      map snd children = pre ++ child :: post →
      for_each pre
        (visit_child (λ dir' url', download_data fuel sess dir' url' d) dir)
        w1 = (Ok tt, w2) →
      field child "rn" = Some (JStr rn) →
      field child "url" = Some (JStr u) →
      visit_reaches_assertion sess d fuel
        (Py.os_path_join dir [Py.str_replace "/" "_" rn]) (u +:+ ".json")
        w2 w3 →
      visit_reaches_assertion sess d (S fuel) dir url w w3.

(** A computation that has no effect. *)
Definition pure {A} (m : M A) : Prop := ∀ w, snd (m w) = w.

(** Every run of [m] relates the world before to the world after. *)
Definition preserves (R : world → world → Prop) {A} (m : M A) : Prop :=
  ∀ w r w', m w = (r, w') → R w w'.

(** The body of the response parses as JSON. *)
Definition parsed (r : response) : bool :=
  match r with
  | Body (Json _) => true
  | _ => false
  end.

(** The answers to the requests made for the locators that [sel] selects,
    in order. *)
Fixpoint responses_of (sel : string → bool) (l : list event)
    : list response :=
  match l with
  | [] => []
  | EvGet u r :: l' =>
      if sel u then r :: responses_of sel l' else responses_of sel l'
  | _ :: l' => responses_of sel l'
  end.

(** The answers to the requests made for [url], in order. *)
Definition responses_for (url : string) (l : list event) : list response :=
  responses_of (λ u, bool_decide (u = url)) l.

(** The answers to all the requests of a trace, in order. *)
Definition responses (l : list event) : list response :=
  responses_of (λ _, true) l.

(** No answer follows one that parsed. *)
Fixpoint stops_at_success (rs : list response) : bool :=
  match rs with
  | [] => true
  | r :: rs' =>
      if parsed r then match rs' with [] => true | _ => false end
      else stops_at_success rs'
  end.

(** The run ended with an exception that no call site catches. *)
Definition fatal {A} (r : outcome A) : Prop :=
  ∃ e, r = Raise e ∧ is_ValueError e = false.

(** What a run from [w] to [w'] with outcome [r] did about the document
    whose locators [sel] selects and whose storage path is [P]: files
    stayed; requests for it were made only while [P] was absent and stopped
    at the first one that parsed; the body of that one was written to [P],
    which is there at the end, unless the run ended with an exception that
    no call site catches. *)
Definition fetched_once (sel : string → bool) (P : string) {A}
    (w : world) (r : outcome A) (w' : world) : Prop :=
  (∀ p, is_Some (fs w !! p) → is_Some (fs w' !! p))
  ∧ ∃ new,
      trace w' = trace w ++ new
      ∧ (is_Some (fs w !! P) → responses_of sel new = [])
      ∧ stops_at_success (responses_of sel new) = true
      ∧ ((∀ u j, sel u = true → EvGet u (Body (Json j)) ∈ new →
                 EvWrite P (Json j) ∈ new ∧ is_Some (fs w' !! P))
         ∨ fatal r).

Definition fetches_once (sel : string → bool) (P : string) {A} (m : M A)
    : Prop :=
  ∀ w r w', m w = (r, w') → fetched_once sel P w r w'.

(** What comes right before the event [e] when the events before it are
    [pre]:
    - a request comes right after the probe of a path that was not found;
    - a read comes right after the probe that found the file;
    - a sleep is the wait of a retry loop, or the delay [d] right after a
      request whose body parsed;
    - a file is written right after a request whose body parsed, the delay
      and the making of its directory, and it receives that body at the
      sanitised form of the path that was probed. *)
Definition preceded (d : Q) (e : event) (pre : list event) : Prop :=
  match e with
  | EvGet _ _ => ∃ pre' p, pre = pre' ++ [EvExists p false]
  | EvRead p => ∃ pre', pre = pre' ++ [EvExists p true]
  | EvSleep q =>
      q = RETRY_WAIT
      ∨ q = d ∧ ∃ pre' u j, pre = pre' ++ [EvGet u (Body (Json j))]
  | EvWrite p t =>
      ∃ pre' q u j,
        pre = pre' ++ [EvExists q false; EvGet u (Body (Json j)); EvSleep d;
                       EvMakedirs (Py.os_path_dirname p)]
        ∧ p = Py.str_replace "*" "_" q
        ∧ t = Json j
  | _ => True
  end.

(** Every event of [l] is preceded as it should. *)
Definition well_preceded (d : Q) (l : list event) : Prop :=
  ∀ pre e post, l = pre ++ e :: post → preceded d e pre.

(** The run appended well-preceded events to the trace. *)
Definition appends_well_preceded (d : Q) (w w' : world) : Prop :=
  ∃ new, trace w' = trace w ++ new ∧ well_preceded d new.

(** A file write. *)
Definition is_write (e : event) : bool :=
  match e with EvWrite _ _ => true | _ => false end.

(** The number of events of [l] that [f] selects. *)
Definition count (f : event → bool) (l : list event) : nat :=
  length (filter (λ e, f e = true) l).

(** An event that is neither a request nor a change of the storage. *)
Definition silent_event (e : event) : Prop :=
  match e with
  | EvGet _ _ | EvWrite _ _ | EvMakedirs _ => False
  | _ => True
  end.

(** No two elements of [l] are equal as Python compares hashable values. *)
Fixpoint distinct_keys (l : list json) : bool :=
  match l with
  | [] => true
  | x :: l' => negb (existsb (key_eqb x) l') && distinct_keys l'
  end.

(** The files that the run created, and the paths it wrote to, have no
    asterisk. *)
Definition creates_sanitised (w w' : world) : Prop :=
  (∀ p, fs w !! p = None → is_Some (fs w' !! p) → occurs "*" p = false)
  ∧ ∃ new,
      trace w' = trace w ++ new
      ∧ ∀ p t, EvWrite p t ∈ new → occurs "*" p = false.

(** The run removed no file, and changed the content of one only by
    writing to the sanitised form of a path that it did not find. *)
Definition keeps_files (w w' : world) : Prop :=
  (∀ p, is_Some (fs w !! p) → is_Some (fs w' !! p))
  ∧ ∃ new,
      trace w' = trace w ++ new
      ∧ ∀ p t,
          fs w !! p = Some t →
          fs w' !! p = Some t
          ∨ ∃ q, q ≠ p ∧ Py.str_replace "*" "_" q = p
                 ∧ EvExists q false ∈ new.

(** No request of the trace failed at the transport level. *)
Definition no_unreachable (l : list event) : Prop :=
  ∀ u, EvGet u Unreachable ∉ l.

(** Either no request of the run failed at the transport level, or one
    did, it was the last effect of the run, and the run ended with
    [ConnectionError]. *)
Definition ends_at_unreachable {A} (m : M A) : Prop :=
  ∀ w r w',
    m w = (r, w') →
    ∃ new,
      trace w' = trace w ++ new
      ∧ (no_unreachable new
         ∨ r = Raise ConnectionError
           ∧ ∃ pre u, new = pre ++ [EvGet u Unreachable] ∧ no_unreachable pre).

(** What Python raises at [node_info['srs'].values()]. *)
Definition srs_error (info : json) : exn :=
  match info with
  | JObj fields =>
      match assoc "srs" fields with
      | None => KeyError
      | Some _ => AttributeError
      end
  | _ => TypeError
  end.

(** A probe of a path that the sanitising of line 34 leaves as it is. *)
Definition probe_clean (e : event) : Prop :=
  match e with
  | EvExists path _ => Py.str_replace "*" "_" path = path
  | _ => True
  end.

(** A run of [m] all of whose probes are clean only adds files. *)
Definition grows {A} (m : M A) : Prop :=
  ∀ w r w',
    m w = (r, w') →
    ∃ new, trace w' = trace w ++ new ∧ (Forall probe_clean new → fs w ⊆ fs w').

(** The descriptors of the node at [dir] and of the nodes below it, down
    to [depth] levels, are in [files]: each is stored at its [info.json],
    and names its children in [srs], each with a name and a locator. *)
Fixpoint materialised (depth : nat) (files : gmap string text)
    (dir : string) : Prop :=
  match depth with
  | O => False
  | S depth' =>
      ∃ info children,
        files !! info_path dir = Some (Json info)
        ∧ field info "srs" = Some (JObj children)
        ∧ ∀ child, child ∈ map snd children →
            ∃ rn u,
              field child "rn" = Some (JStr rn)
              ∧ field child "url" = Some (JStr u)
              ∧ materialised depth' files
                  (Py.os_path_join dir [Py.str_replace "/" "_" rn])
  end.

(** Whatever [m1] does when it does not run out of fuel, [m2] does too. *)
Definition refines {A} (m1 m2 : M A) : Prop :=
  ∀ w r w', m1 w = (r, w') → r ≠ Diverge → m2 w = (r, w').

(** A run of [m] never writes more files than it makes requests.  When it
    probed paths without asterisk only and wrote a file for each of its
    requests, it only added files, and [m], run again on any storage that
    contains the resulting one, ends in the same way without a request and
    without touching the storage. *)
Definition replays {A} (m : M A) : Prop :=
  ∀ wa r wb,
    m wa = (r, wb) →
    ∃ new,
      trace wb = trace wa ++ new
      ∧ (count is_write new ≤ count is_get new)%nat
      ∧ (Forall probe_clean new →
         (count is_get new ≤ count is_write new)%nat →
         fs wa ⊆ fs wb
         ∧ ∀ w, fs wb ⊆ fs w →
             ∃ quiet,
               m w = (r, World (fs w) (trace w ++ quiet))
               ∧ Forall silent_event quiet).

(** * Properties *)

(** ** The resolver, case by case *)

Lemma requests_so_far_log e w :
  requests_so_far (log e w) =
  requests_so_far w + (if is_get e then 1 else 0).
Proof.
  unfold requests_so_far, log; simpl.
  rewrite filter_app, length_app.
  destruct e; reflexivity.
Qed.

(** Cache hit: the file is read, nothing else happens. *)
Lemma load_or_download_hit sess path url d w t :
  fs w !! path = Some t →
  load_or_download sess path url d w =
  (match json_loads t with
   | Some j => Ok j
   | None => Raise JSONDecodeError
   end,
   World (fs w) (trace w ++ [EvExists path true; EvRead path])).
Proof.
  intros Hfile.
  unfold load_or_download, bind, os_path_exists, json_load_file.
  rewrite bool_decide_eq_true_2 by (rewrite Hfile; eauto).
  simpl. rewrite Hfile.
  destruct (json_loads t); unfold log; simpl; rewrite <- app_assoc; reflexivity.
Qed.

(** Cache miss: one GET, and then what the response decides; a body that
    parsed is stored unless the sleep, the directory or the file fails. *)
Lemma load_or_download_miss sess path url d w :
  fs w !! path = None →
  load_or_download sess path url d w =
  let r := sess (requests_so_far w) url in
  match r with
  | Body (Json j) =>
      match store_failure d (fs w) path with
      | None =>
          let path' := Py.str_replace "*" "_" path in
          (Ok j,
           World (<[path' := Json j]> (fs w))
             (trace w ++ [EvExists path false; EvGet url r; EvSleep d;
                          EvMakedirs (Py.os_path_dirname path');
                          EvWrite path' (Json j)]))
      | Some (e, done) =>
          (Raise e,
           World (fs w)
             (trace w ++ EvExists path false :: EvGet url r :: done))
      end
  | Body (Garbage _) =>
      (Raise (ValueError "Results not available."),
       World (fs w) (trace w ++ [EvExists path false; EvGet url r]))
  | Unreachable =>
      (Raise ConnectionError,
       World (fs w) (trace w ++ [EvExists path false; EvGet url r]))
  | Rejected =>
      (Raise InvalidURL,
       World (fs w) (trace w ++ [EvExists path false; EvGet url r]))
  end.
Proof.
  intros Hfile.
  unfold load_or_download, bind, os_path_exists.
  rewrite bool_decide_eq_false_2 by (rewrite Hfile; intros [? ?]; discriminate).
  unfold try_except, bind, sess_get_json.
  rewrite requests_so_far_log; simpl. rewrite Nat.add_0_r.
  destruct (sess (requests_so_far w) url) as [[j|s]| |]; simpl;
    try (unfold log; simpl; repeat rewrite <- app_assoc; reflexivity).
  unfold store_failure, time_sleep, os_makedirs, json_dump_file, log. simpl.
  destruct (Qle_bool 0 d); simpl;
    [|repeat rewrite <- app_assoc; reflexivity].
  destruct (occurs NUL (Py.os_path_dirname (Py.str_replace "*" "_" path)));
    simpl; [repeat rewrite <- app_assoc; reflexivity|].
  case_bool_decide; simpl; [repeat rewrite <- app_assoc; reflexivity|].
  destruct (blocked (fs w) (Py.os_path_dirname (Py.str_replace "*" "_" path)))
    eqn:Hblocked; simpl; [repeat rewrite <- app_assoc; reflexivity|].
  destruct (occurs NUL (Py.str_replace "*" "_" path)); simpl;
    [repeat rewrite <- app_assoc; reflexivity|].
  rewrite Hblocked. simpl. repeat rewrite <- app_assoc. reflexivity.
Qed.

(** The three ways a call of the resolver goes: the file is found and read;
    it is missing, fetched and stored; it is missing and the call raises,
    the storage being left as it was. *)
Lemma load_or_download_cases sess path url d w r w' :
  load_or_download sess path url d w = (r, w') →
  (∃ t, fs w !! path = Some t
        ∧ r = match json_loads t with
              | Some j => Ok j
              | None => Raise JSONDecodeError
              end
        ∧ w' = World (fs w) (trace w ++ [EvExists path true; EvRead path]))
  ∨ (∃ j, fs w !! path = None
          ∧ sess (requests_so_far w) url = Body (Json j)
          ∧ store_failure d (fs w) path = None
          ∧ r = Ok j
          ∧ w' = World (<[Py.str_replace "*" "_" path := Json j]> (fs w))
                   (trace w ++ fetched path url (Body (Json j)) d j))
  ∨ (∃ e done, fs w !! path = None
               ∧ failed_fetch d (fs w) path (sess (requests_so_far w) url)
                   e done
               ∧ r = Raise e
               ∧ w' = World (fs w)
                        (trace w ++ EvExists path false
                           :: EvGet url (sess (requests_so_far w) url)
                           :: done)).
Proof.
  intros Hrun. destruct (fs w !! path) as [t|] eqn:Hfile.
  - rewrite (load_or_download_hit _ _ _ _ _ _ Hfile) in Hrun.
    injection Hrun as <- <-. left. eauto.
  - rewrite (load_or_download_miss _ _ _ _ _ Hfile) in Hrun. simpl in Hrun.
    right. unfold failed_fetch.
    destruct (sess (requests_so_far w) url) as [[j|s]| |] eqn:Hresp.
    + destruct (store_failure d (fs w) path) as [[e done]|] eqn:Hstore;
        injection Hrun as <- <-.
      * right. exists e, done. auto.
      * left. exists j. auto.
    + injection Hrun as <- <-. right. eexists _, []. auto.
    + injection Hrun as <- <-. right. eexists _, []. auto.
    + injection Hrun as <- <-. right. eexists _, []. auto.
Qed.

(** Between the request and the failure there is nothing, or, after a body
    that parsed, the delay and possibly the making of the directory. *)
Lemma failed_fetch_done d files path resp e done :
  failed_fetch d files path resp e done →
  done = []
  ∨ ∃ j, resp = Body (Json j)
         ∧ (done = [EvSleep d]
            ∨ done = [EvSleep d;
                      EvMakedirs
                        (Py.os_path_dirname (Py.str_replace "*" "_" path))]).
Proof.
  unfold failed_fetch, store_failure.
  destruct resp as [[j|s]| |]; try (intros [_ ->]; auto).
  repeat match goal with
         | |- context [if ?b then _ else _] => destruct b
         end; intros H; try discriminate; injection H as <- <-; eauto.
Qed.

(** [ConnectionError] comes from the transport alone. *)
Lemma failed_fetch_transport d files path resp e done :
  failed_fetch d files path resp e done →
  (resp = Unreachable → e = ConnectionError ∧ done = [])
  ∧ (e = ConnectionError → resp = Unreachable).
Proof.
  unfold failed_fetch, store_failure.
  destruct resp as [[j|s]| |].
  - repeat match goal with
           | |- context [if ?b then _ else _] => destruct b
           end; intros H; try discriminate; injection H as <- <-;
      split; intros; discriminate.
  - intros [-> ->]. split; intros; discriminate.
  - intros [-> ->]. auto.
  - intros [-> ->]. split; intros; discriminate.
Qed.

(** C3.  When a file exists at the storage path, the resolver parses it and
    returns its content; the storage is left as it was, and the only effects
    are the existence probe and the read of that file: no GET, no sleep, no
    directory or file is created, written or deleted. *)
Theorem cache_hit_reads_only sess path url d w t :
  fs w !! path = Some t →
  ∃ r w',
    load_or_download sess path url d w = (r, w') ∧
    (∀ j, json_loads t = Some j → r = Ok j) ∧
    fs w' = fs w ∧
    trace w' = trace w ++ [EvExists path true; EvRead path].
Proof.
  intros Hfile. eexists _, _. split.
  - apply load_or_download_hit, Hfile.
  - simpl. split; [|split]; try reflexivity.
    intros j Hj. rewrite Hj. reflexivity.
Qed.

Lemma cache_hit_reads_only_witness :
  ∃ r w',
    load_or_download Scenario.upstream "data/contests/C1.json"
      (contest_url (JStr "C1")) (1 # 2)
      (World {[ "data/contests/C1.json" := Json Scenario.c1 ]} []) = (r, w') ∧
    (∀ j, json_loads (Json Scenario.c1) = Some j → r = Ok j) ∧
    fs w' = {[ "data/contests/C1.json" := Json Scenario.c1 ]} ∧
    trace w' = [EvExists "data/contests/C1.json" true;
                EvRead "data/contests/C1.json"].
Proof.
  exact (cache_hit_reads_only Scenario.upstream "data/contests/C1.json"
           (contest_url (JStr "C1")) (1 # 2)
           (World {[ "data/contests/C1.json" := Json Scenario.c1 ]} [])
           (Json Scenario.c1) eq_refl).
Defined.



(** ** The two handlers of [ValueError] *)

Lemma world_eta w : World (fs w) (trace w) = w.
Proof. destruct w; reflexivity. Qed.


(** One turn of the retry loop. *)
Lemma retry_forever_step {A} fuel (attempt : M A) w :
  retry_forever (S fuel) attempt w =
  match attempt w with
  | (Raise e, w') =>
      if is_ValueError e
      then retry_forever fuel attempt (log (EvSleep RETRY_WAIT) w')
      else (Raise e, w')
  | r => r
  end.
Proof.
  simpl. unfold try_except.
  destruct (attempt w) as [[a|e|] w']; reflexivity.
Qed.

(** The single attempt of the terminal-data sites. *)
Lemma attempt_once_step {A} (attempt : M A) w :
  attempt_once attempt w =
  match attempt w with
  | (Ok a, w') => (Ok (Some a), w')
  | (Raise e, w') => if is_ValueError e then (Ok None, w') else (Raise e, w')
  | (Diverge, w') => (Diverge, w')
  end.
Proof.
  unfold attempt_once, try_except, bind.
  destruct (attempt w) as [[a|e|] w']; reflexivity.
Qed.





(** ** Loops *)

Lemma for_each_app {A} (pre post : list A) (body : A → M unit) w :
  for_each (pre ++ post) body w =
  match for_each pre body w with
  | (Ok _, w') => for_each post body w'
  | r => r
  end.
Proof.
  revert w. induction pre as [|x pre IH]; intros w; simpl.
  - reflexivity.
  - unfold bind. destruct (body x w) as [[[]|e|] w']; try reflexivity.
    apply IH.
Qed.

(** An exception raised by one iteration ends the loop there. *)
Lemma for_each_raises {A} (pre post : list A) x (body : A → M unit)
    w w1 w2 e :
  for_each pre body w = (Ok tt, w1) →
  body x w1 = (Raise e, w2) →
  for_each (pre ++ x :: post) body w = (Raise e, w2).
Proof.
  intros Hpre Hx. rewrite for_each_app, Hpre. simpl.
  unfold bind. rewrite Hx. reflexivity.
Qed.

(** ** The call sites *)

Lemma getitem_field j k v w :
  field j k = Some v → getitem j k w = (Ok v, w).
Proof.
  destruct j; simpl; try discriminate. intros ->. reflexivity.
Qed.

Lemma download_contest_eq fuel sess d c w :
  download_contest fuel sess d c w =
  match retry_forever fuel
          (load_or_download sess (contest_path c) (contest_url c) d) w with
  | (Ok _, w') => (Ok tt, w')
  | (Raise e, w') => (Raise e, w')
  | (Diverge, w') => (Diverge, w')
  end.
Proof. reflexivity. Qed.

Lemma download_coc_eq sess dir d coc u w :
  single_vb_url coc = Some u →
  download_coc sess dir d coc w =
  match load_or_download sess (coc_path dir) (results_url (u +:+ ".json"))
          d w with
  | (Ok _, w') => (Ok tt, w')
  | (Raise e, w') => if is_ValueError e then (Ok tt, w') else (Raise e, w')
  | (Diverge, w') => (Diverge, w')
  end.
Proof.
  unfold single_vb_url. intros Hu.
  destruct (field coc "vbs") as [[| | | |[|vb [|]]|]|] eqn:Hvbs;
    try discriminate.
  destruct (field vb "url") as [[| | |s| |]|] eqn:Hurl; try discriminate.
  injection Hu as <-.
  destruct coc; try discriminate. destruct vb; try discriminate.
  simpl in Hvbs, Hurl.
  unfold download_coc, bind, getitem. rewrite Hvbs. simpl. rewrite Hurl. simpl.
  rewrite attempt_once_step.
  destruct (load_or_download _ _ _ _ _) as [[a|e|] w']; try reflexivity.
  destruct (is_ValueError e); reflexivity.
Qed.

Lemma download_precinct_eq fuel sess dir d precinct ppcc u w :
  field precinct "ppcc" = Some (JStr ppcc) →
  single_vb_url precinct = Some u →
  download_precinct fuel sess dir d precinct w =
  match load_or_download sess (precinct_path dir (ppcc +:+ ".json"))
          (results_url (u +:+ ".json")) d w with
  | (Ok results, w') => download_contests_of fuel sess d results w'
  | (Raise e, w') => if is_ValueError e then (Ok tt, w') else (Raise e, w')
  | (Diverge, w') => (Diverge, w')
  end.
Proof.
  unfold single_vb_url. intros Hppcc Hu.
  destruct (field precinct "vbs") as [[| | | |[|vb [|]]|]|] eqn:Hvbs;
    try discriminate.
  destruct (field vb "url") as [[| | |s| |]|] eqn:Hurl; try discriminate.
  injection Hu as <-.
  destruct precinct; try discriminate. destruct vb; try discriminate.
  simpl in Hppcc, Hvbs, Hurl.
  unfold download_precinct, bind, getitem. rewrite Hppcc. simpl.
  rewrite Hvbs. simpl. rewrite Hurl. simpl.
  rewrite attempt_once_step.
  destruct (load_or_download _ _ _ _ _) as [[a|e|] w']; try reflexivity.
  destruct (is_ValueError e); reflexivity.
Qed.

Lemma download_data_eq fuel sess dir url d w :
  download_data (S fuel) sess dir url d w =
  match retry_forever fuel
          (load_or_download sess (info_path dir) (info_url url) d) w with
  | (Ok node_info, w') =>
      visit_node (λ dir' url', download_data fuel sess dir' url' d)
        fuel sess dir d node_info w'
  | (Raise e, w') => (Raise e, w')
  | (Diverge, w') => (Diverge, w')
  end.
Proof. reflexivity. Qed.

(** ** Recoverable and fatal errors at the call sites *)



(** C2 fails on the code: an error that is not a parse failure of a fetch
    response is recovered too.  With a damaged [coc.json] on disk the
    resolver raises [JSONDecodeError] without any request, and the
    certificate site, whose handler is there for "no COC yet", skips the
    reference and returns normally instead of letting the error through. *)
Lemma local_failure_is_recovered_too :
  let w := Scenario.damaged (coc_path "A") in
  let w' := World (fs w) [EvExists (coc_path "A") true; EvRead (coc_path "A")] in
  load_or_download Scenario.upstream (coc_path "A")
    (results_url "res9.json") (1 # 2) w = (Raise JSONDecodeError, w')
  ∧ download_coc Scenario.upstream "A" (1 # 2)
      (Scenario.reference "p1" "res9") w = (Ok tt, w')
  ∧ ¬ (∀ sess d dir coc u w e w',
         single_vb_url coc = Some u →
         load_or_download sess (coc_path dir) (results_url (u +:+ ".json"))
           d w = (Raise e, w') →
         e ≠ ValueError "Results not available." →
         download_coc sess dir d coc w = (Raise e, w')).
Proof.
  intros w w'.
  assert (Hload : load_or_download Scenario.upstream (coc_path "A")
            (results_url "res9.json") (1 # 2) w = (Raise JSONDecodeError, w'))
    by reflexivity.
  assert (Hsite : download_coc Scenario.upstream "A" (1 # 2)
            (Scenario.reference "p1" "res9") w = (Ok tt, w'))
    by reflexivity.
  refine (conj Hload (conj Hsite _)).
  intros Hclaim.
  specialize (Hclaim Scenario.upstream (1 # 2) "A"
                (Scenario.reference "p1" "res9") "res9" w JSONDecodeError w'
                eq_refl Hload ltac:(discriminate)).
  rewrite Hsite in Hclaim. discriminate.
Qed.

(** ** A damaged local file *)

Lemma load_or_download_damaged sess path url d w s :
  fs w !! path = Some (Garbage s) →
  load_or_download sess path url d w =
  (Raise JSONDecodeError,
   World (fs w) (trace w ++ [EvExists path true; EvRead path])).
Proof. intros Hfile. rewrite (load_or_download_hit _ _ _ _ _ _ Hfile). done. Qed.

Lemma retry_damaged sess path url d s fuel :
  ∀ w,
    fs w !! path = Some (Garbage s) →
    retry_forever fuel (load_or_download sess path url d) w =
    (Diverge, World (fs w) (trace w ++ failed_reads path fuel)).
Proof.
  induction fuel as [|fuel IH]; intros w Hfile.
  - simpl. rewrite app_nil_r, world_eta. reflexivity.
  - rewrite retry_forever_step.
    rewrite (load_or_download_damaged _ _ _ _ _ s) by exact Hfile. simpl.
    rewrite IH by exact Hfile. simpl.
    repeat rewrite <- app_assoc. reflexivity.
Qed.

(** What a damaged file does at each call site.  When the file exists but
    does not parse, the resolver raises [json.JSONDecodeError], having
    touched neither the network nor the storage.  [JSONDecodeError] is a
    [ValueError], so the handlers meant for "not yet available" catch it.
    The two retrying sites retry it, and since nothing repairs the file
    they do so for ever: whatever the fuel, the run has neither returned
    nor raised, and has read the file and slept [RETRY_WAIT] once per unit
    of fuel.  The two terminal-data sites skip the reference and return
    normally. *)
Theorem damaged_file_is_handled_as_unavailable sess d :
  (∀ path url w s,
     fs w !! path = Some (Garbage s) →
     load_or_download sess path url d w =
     (Raise JSONDecodeError,
      World (fs w) (trace w ++ [EvExists path true; EvRead path])))
  ∧ is_ValueError JSONDecodeError = true
  ∧ (∀ fuel dir url w s,
       fs w !! info_path dir = Some (Garbage s) →
       download_data (S fuel) sess dir url d w =
       (Diverge,
        World (fs w) (trace w ++ failed_reads (info_path dir) fuel)))
  ∧ (∀ fuel c w s,
       fs w !! contest_path c = Some (Garbage s) →
       download_contest fuel sess d c w =
       (Diverge,
        World (fs w) (trace w ++ failed_reads (contest_path c) fuel)))
  ∧ (∀ fuel dir precinct ppcc u w s,
       field precinct "ppcc" = Some (JStr ppcc) →
       single_vb_url precinct = Some u →
       fs w !! precinct_path dir (ppcc +:+ ".json") = Some (Garbage s) →
       download_precinct fuel sess dir d precinct w =
       (Ok tt,
        World (fs w)
          (trace w ++ [EvExists (precinct_path dir (ppcc +:+ ".json")) true;
                       EvRead (precinct_path dir (ppcc +:+ ".json"))])))
  ∧ (∀ dir coc u w s,
       single_vb_url coc = Some u →
       fs w !! coc_path dir = Some (Garbage s) →
       download_coc sess dir d coc w =
       (Ok tt,
        World (fs w)
          (trace w ++ [EvExists (coc_path dir) true; EvRead (coc_path dir)]))).
Proof.
  refine (conj _ (conj _ (conj _ (conj _ (conj _ _))))).
  - intros path url w s Hfile. apply (load_or_download_damaged _ _ _ _ _ s Hfile).
  - reflexivity.
  - intros fuel dir url w s Hfile.
    rewrite download_data_eq, (retry_damaged _ _ _ _ s) by exact Hfile.
    reflexivity.
  - intros fuel c w s Hfile.
    rewrite download_contest_eq, (retry_damaged _ _ _ _ s) by exact Hfile.
    reflexivity.
  - intros fuel dir precinct ppcc u w s Hppcc Hu Hfile.
    rewrite (download_precinct_eq _ _ _ _ _ ppcc u) by assumption.
    rewrite (load_or_download_damaged _ _ _ _ _ s) by exact Hfile.
    reflexivity.
  - intros dir coc u w s Hu Hfile.
    rewrite (download_coc_eq _ _ _ _ u) by assumption.
    rewrite (load_or_download_damaged _ _ _ _ _ s) by exact Hfile.
    reflexivity.
Qed.

Lemma damaged_file_is_handled_as_unavailable_witness :
  let d := (1 # 2)%Q in
  let sess := Scenario.upstream in
  let c := JStr "C1" in
  let ref := Scenario.reference "p1" "res1" in
  load_or_download sess (info_path "") (info_url "root.json") d
    (Scenario.damaged (info_path "")) =
    (Raise JSONDecodeError,
     World {[ info_path "" := Garbage "{" ]}
       [EvExists (info_path "") true; EvRead (info_path "")])
  ∧ download_data 3 sess "" "root.json" d (Scenario.damaged (info_path "")) =
    (Diverge,
     World {[ info_path "" := Garbage "{" ]} (failed_reads (info_path "") 2))
  ∧ download_contest 2 sess d c (Scenario.damaged (contest_path c)) =
    (Diverge,
     World {[ contest_path c := Garbage "{" ]}
       (failed_reads (contest_path c) 2))
  ∧ download_precinct 2 sess "A" d ref
      (Scenario.damaged (precinct_path "A" "p1.json")) =
    (Ok tt,
     World {[ precinct_path "A" "p1.json" := Garbage "{" ]}
       [EvExists (precinct_path "A" "p1.json") true;
        EvRead (precinct_path "A" "p1.json")])
  ∧ download_coc sess "A" d ref (Scenario.damaged (coc_path "A")) =
    (Ok tt,
     World {[ coc_path "A" := Garbage "{" ]}
       [EvExists (coc_path "A") true; EvRead (coc_path "A")]).
Proof.
  intros d sess c ref.
  destruct (damaged_file_is_handled_as_unavailable sess d)
    as (Hload & _ & Hd & Hc & Hp & Hcoc).
  refine (conj _ (conj _ (conj _ (conj _ _)))).
  - exact (Hload (info_path "") (info_url "root.json")
             (Scenario.damaged (info_path "")) "{" eq_refl).
  - exact (Hd 2 "" "root.json" (Scenario.damaged (info_path "")) "{" eq_refl).
  - exact (Hc 2 c (Scenario.damaged (contest_path c)) "{" eq_refl).
  - exact (Hp 2 "A" ref "p1" "res1"
             (Scenario.damaged (precinct_path "A" "p1.json")) "{"
             eq_refl eq_refl eq_refl).
  - exact (Hcoc "A" ref "res1" (Scenario.damaged (coc_path "A")) "{"
             eq_refl eq_refl).
Defined.

(** C4 fails on the code: with a damaged [info.json] for the root, the
    descriptor site does not surface a fatal error; its handler, which is
    there for a "temporary error", catches the failure of the read, and the
    loop reads the file and sleeps, again and again. *)
Lemma damaged_descriptor_is_retried :
  let w := Scenario.damaged (info_path "") in
  download_data 3 Scenario.upstream "" "root.json" (1 # 2) w =
    (Diverge,
     World (fs w)
       [EvExists (info_path "") true; EvRead (info_path ""); EvSleep RETRY_WAIT;
        EvExists (info_path "") true; EvRead (info_path ""); EvSleep RETRY_WAIT])
  ∧ ¬ (∀ fuel sess dir url d w s,
         fs w !! info_path dir = Some (Garbage s) →
         ∃ e w', download_data (S (S fuel)) sess dir url d w = (Raise e, w')
                 ∧ is_ValueError e = false).
Proof.
  intros w. split; [reflexivity|].
  intros Hclaim.
  destruct (Hclaim 1 Scenario.upstream "" "root.json" (1 # 2) w "{" eq_refl)
    as (e & w' & Hrun & _).
  discriminate Hrun.
Qed.

(** ** The delay after a fetch *)

(** C5 fails on the code.  In the tree [Scenario.lone_barangay] both
    election returns are unpublished: the two requests for them follow each
    other with no sleep in between, and none after the second; the only
    sleep of the run follows the one fetch that parsed. *)
Theorem failed_fetch_is_not_followed_by_delay :
  download_data 3 Scenario.early "" "root.json" (1 # 2) Scenario.empty_world =
  (Ok tt,
   World {[ info_path "" := Json Scenario.lone_barangay ]}
     [EvExists (info_path "") false;
      EvGet (info_url "root.json") (Body (Json Scenario.lone_barangay));
      EvSleep (1 # 2);
      EvMakedirs "data/results";
      EvWrite (info_path "") (Json Scenario.lone_barangay);
      EvExists (precinct_path "" "p1.json") false;
      EvGet (results_url "res8.json") Scenario.not_found;
      EvExists (precinct_path "" "p2.json") false;
      EvGet (results_url "res9.json") Scenario.not_found]).
Proof. reflexivity. Qed.

(** ** The storage root *)

(** C9 fails on the code.  [main] never reads its [base_dir] argument: the
    run is the same for every value, and with [--base-dir out] the files
    are created under [data/]. *)
Theorem base_dir_is_ignored :
  (∀ fuel sess base_dir d log_level,
     main fuel sess base_dir d log_level =
     download_data fuel sess "" "root.json" d)
  ∧ dom (fs (snd (main 4 Scenario.upstream "out" (1 # 2) "INFO"
                    Scenario.empty_world))) =
    ({[ "data/results/info.json"; "data/results/A/info.json";
        "data/results/A/p1.json"; "data/contests/C1.json" ]} : gset string).
Proof.
  split; [reflexivity|]. vm_compute. exact eq_refl.
Qed.

(** ** The assertions *)

Lemma getitem_obj fields k v w :
  assoc k fields = Some v → getitem (JObj fields) k w = (Ok v, w).
Proof. intros H. simpl. rewrite H. reflexivity. Qed.

Lemma field_obj j k v :
  field j k = Some v → ∃ fields, j = JObj fields ∧ assoc k fields = Some v.
Proof. destruct j; simpl; try discriminate. eauto. Qed.

Lemma precinct_assertion fuel sess dir d precinct ppcc n w :
  field precinct "ppcc" = Some (JStr ppcc) →
  vb_count precinct = Some n →
  n ≠ 1 →
  download_precinct fuel sess dir d precinct w = (Raise AssertionError, w).
Proof.
  unfold vb_count. intros Hppcc Hn Hne.
  destruct (field precinct "vbs") as [vbs|] eqn:Hvbs; [|discriminate].
  destruct precinct; try discriminate. simpl in Hppcc, Hvbs.
  unfold download_precinct, bind, getitem. rewrite Hppcc. simpl.
  rewrite Hvbs. simpl. unfold py_len. rewrite Hn. simpl.
  destruct (Nat.eqb_spec n 1); [contradiction|reflexivity].
Qed.

Lemma coc_assertion sess dir d coc n w :
  vb_count coc = Some n →
  n ≠ 1 →
  download_coc sess dir d coc w = (Raise AssertionError, w).
Proof.
  unfold vb_count. intros Hn Hne.
  destruct (field coc "vbs") as [vbs|] eqn:Hvbs; [|discriminate].
  destruct coc; try discriminate. simpl in Hvbs.
  unfold download_coc, bind, getitem. rewrite Hvbs. simpl.
  unfold py_len. rewrite Hn. simpl.
  destruct (Nat.eqb_spec n 1); [contradiction|reflexivity].
Qed.

Lemma visit_node_eq recur fuel sess dir d info children w :
  field info "srs" = Some (JObj children) →
  visit_node recur fuel sess dir d info w =
  match for_each (map snd children) (visit_child recur dir) w with
  | (Ok _, w') => terminal_data fuel sess dir d info w'
  | (Raise e, w') => (Raise e, w')
  | (Diverge, w') => (Diverge, w')
  end.
Proof.
  intros Hsrs. destruct info; try discriminate. simpl in Hsrs.
  unfold visit_node, bind, getitem. rewrite Hsrs. reflexivity.
Qed.

Lemma visit_child_eq recur dir child rn u w :
  field child "rn" = Some (JStr rn) →
  field child "url" = Some (JStr u) →
  visit_child recur dir child w =
  recur (Py.os_path_join dir [Py.str_replace "/" "_" rn]) (u +:+ ".json") w.
Proof.
  intros Hrn Hu. destruct child; try discriminate. simpl in Hrn, Hu.
  unfold visit_child, bind, getitem. rewrite Hrn. simpl. rewrite Hu.
  reflexivity.
Qed.

Lemma terminal_data_assertion sess d fuel dir info w w' :
  assertion_reached sess d fuel dir info w w' →
  terminal_data fuel sess dir d info w = (Raise AssertionError, w').
Proof.
  intros [can pps n Hcan Hleaf Hcountry Hpps Hlen Hn
         |can pps pre bad post ppcc n w1 Hcan Hleaf Hpps Hitems Hpre Hppcc Hvb Hn
         |can pps pre bad post n w1 Hcan Hleaf Hguard Hpps Hitems Hpre Hvb Hn];
    destruct info; try discriminate; simpl in Hcan, Hpps;
    unfold terminal_data, bind, getitem; rewrite Hcan; simpl; rewrite Hleaf.
  - rewrite Hcountry, Hpps. simpl. unfold py_len. rewrite Hlen. simpl.
    destruct (Nat.ltb_spec n 2); [lia|reflexivity].
  - rewrite Hpps. simpl. unfold py_iter. rewrite Hitems. simpl.
    apply (for_each_raises _ _ _ _ _ _ _ _ Hpre).
    apply (precinct_assertion _ _ _ _ _ ppcc n); assumption.
  - assert (Hloop : for_each (pre ++ bad :: post) (download_coc sess dir d) w
                    = (Raise AssertionError, w1)).
    { apply (for_each_raises _ _ _ _ _ _ _ _ Hpre).
      apply (coc_assertion _ _ _ _ n); assumption. }
    destruct Hguard as [Hcountry | (m & Hlen & Hm)].
    + rewrite Hcountry. simpl. rewrite Hpps. simpl.
      unfold py_iter. rewrite Hitems. simpl. exact Hloop.
    + destruct (eq_str can "Country"); simpl; rewrite Hpps; simpl.
      * unfold py_iter. rewrite Hitems. simpl. exact Hloop.
      * unfold py_len. rewrite Hlen. simpl.
        destruct (Nat.ltb_spec m 2); [|lia]. simpl.
        unfold py_iter. rewrite Hitems. simpl. exact Hloop.
Qed.

(** C7.  Whenever the visit of a node reaches a terminal-data reference
    that has not exactly one voting board, or a node that is neither a
    [Barangay] nor a [Country] and has two or more terminal-data references,
    the whole call of [download_data], at whatever depth the node lies,
    ends with [AssertionError] in the world in which the check was made:
    nothing is done after it.  [AssertionError] is not a [ValueError], so
    no retry loop and no skip handler absorbs it. *)
Theorem assertion_failure_is_fatal sess d fuel dir url w w' :
  visit_reaches_assertion sess d fuel dir url w w' →
  download_data fuel sess dir url d w = (Raise AssertionError, w')
  ∧ is_ValueError AssertionError = false.
Proof.
  intros Hreach. split; [|reflexivity].
  induction Hreach
    as [fuel dir url w info children w1 w2 w3 Hinfo Hsrs Hchildren Hassert
       |fuel dir url w info children pre child post rn u w1 w2 w3
          Hinfo Hsrs Hsplit Hpre Hrn Hu Hbelow IH].
  - rewrite download_data_eq, Hinfo.
    rewrite (visit_node_eq _ _ _ _ _ _ children) by exact Hsrs.
    rewrite Hchildren.
    apply terminal_data_assertion, Hassert.
  - rewrite download_data_eq, Hinfo.
    rewrite (visit_node_eq _ _ _ _ _ _ children) by exact Hsrs.
    rewrite Hsplit.
    rewrite (for_each_raises pre post child _ w1 w2 w3 AssertionError Hpre).
    + reflexivity.
    + rewrite (visit_child_eq _ _ _ rn u) by assumption. exact IH.
Qed.

Lemma assertion_failure_is_fatal_witness :
  let w' :=
    World {[ info_path "" := Json Scenario.root_info;
             info_path "A" := Json Scenario.a_info_two_boards ]}
      (fetched (info_path "") (info_url "root.json")
         (Body (Json Scenario.root_info)) (1 # 2) Scenario.root_info
       ++ fetched (info_path "A") (info_url "a.json")
            (Body (Json Scenario.a_info_two_boards)) (1 # 2)
            Scenario.a_info_two_boards) in
  download_data 3 Scenario.schema_drift "" "root.json" (1 # 2)
    Scenario.empty_world = (Raise AssertionError, w')
  ∧ is_ValueError AssertionError = false.
Proof.
  intros w'.
  apply (assertion_failure_is_fatal Scenario.schema_drift (1 # 2) 3
           "" "root.json" Scenario.empty_world w').
  eapply (below_this_node _ _ 2 "" "root.json" Scenario.empty_world
            Scenario.root_info
            [("1", JObj [("rn", JStr "A"); ("url", JStr "a")])]
            [] (JObj [("rn", JStr "A"); ("url", JStr "a")]) [] "A" "a").
  - reflexivity.
  - reflexivity.
  - reflexivity.
  - reflexivity.
  - reflexivity.
  - reflexivity.
  - eapply (at_this_node _ _ 1 "A" "a.json" _ Scenario.a_info_two_boards []).
    + reflexivity.
    + reflexivity.
    + reflexivity.
    + eapply (bad_precinct _ _ 1 "A" Scenario.a_info_two_boards _
                (JStr "Barangay") (JArr [Scenario.two_boards])
                [] Scenario.two_boards [] "p1" 2).
      * reflexivity.
      * reflexivity.
      * reflexivity.
      * reflexivity.
      * vm_compute. reflexivity.
      * reflexivity.
      * reflexivity.
      * discriminate.
Defined.

(** ** Runs over a file name that contains an asterisk *)

(** C1 fails on the code.  On the tree [Scenario.starred_barangay], with
    every resource published and an upstream that never changes, a first
    run from an empty storage completes and stores the election return at
    [data/results/0001_A.json].  The second run, started on that storage,
    probes [data/results/0001*A.json], does not find it, and fetches the
    return again: one request instead of none. *)
Theorem second_run_fetches_again :
  let d := (1 # 2)%Q in
  let run1 := main 3 Scenario.starred "data" d "INFO" Scenario.empty_world in
  let run2 := main 3 Scenario.starred "data" d "INFO"
                (World (fs (snd run1)) []) in
  fst run1 = Ok tt
  ∧ fs (snd run1) =
      {[ "data/results/info.json" := Json Scenario.starred_barangay;
         "data/results/0001_A.json" := Json Scenario.er1 ]}
  ∧ fst run2 = Ok tt
  ∧ fs (snd run2) = fs (snd run1)
  ∧ trace (snd run2) =
      [EvExists "data/results/info.json" true;
       EvRead "data/results/info.json";
       EvExists "data/results/0001*A.json" false;
       EvGet (results_url "er1.json") (Body (Json Scenario.er1));
       EvSleep d;
       EvMakedirs "data/results";
       EvWrite "data/results/0001_A.json" (Json Scenario.er1)].
Proof.
  repeat apply conj; vm_compute; exact eq_refl.
Qed.

(** C10 fails on the code.  The [Country] node [A*] has two certificates.
    Both are probed at [data/results/A*/coc.json], which is never created:
    the first is stored at [data/results/A_/coc.json], the second is
    fetched as well and overwrites it. *)
Theorem second_certificate_is_fetched_too :
  let d := (1 # 2)%Q in
  let run := download_data 3 Scenario.two_certificates "" "root.json" d
               Scenario.empty_world in
  fst run = Ok tt
  ∧ fs (snd run) =
      {[ "data/results/info.json" := Json Scenario.starred_root;
         "data/results/A_/info.json" := Json Scenario.country;
         "data/results/A_/coc.json" := Json Scenario.coc2 ]}
  ∧ drop 10 (trace (snd run)) =
      [EvExists "data/results/A*/coc.json" false;
       EvGet (results_url "coc1.json") (Body (Json Scenario.coc1));
       EvSleep d;
       EvMakedirs "data/results/A_";
       EvWrite "data/results/A_/coc.json" (Json Scenario.coc1);
       EvExists "data/results/A*/coc.json" false;
       EvGet (results_url "coc2.json") (Body (Json Scenario.coc2));
       EvSleep d;
       EvMakedirs "data/results/A_";
       EvWrite "data/results/A_/coc.json" (Json Scenario.coc2)].
Proof.
  repeat apply conj; vm_compute; exact eq_refl.
Qed.

(** C8 fails on the code.  The leaves [A] and [B] both reference the
    contest [C*1], whose document is published.  The run completes; the
    document is probed at [data/contests/C*1.json] for each leaf, and that
    path is never created: the document is stored at
    [data/contests/C_1.json], and it is fetched twice, once for each leaf,
    instead of once. *)
Theorem starred_contest_is_fetched_twice :
  let d := (1 # 2)%Q in
  let X := JStr "C*1" in
  let run := download_data 4 Scenario.starred_contest "" "root.json" d
               Scenario.empty_world in
  fst run = Ok tt
  ∧ contest_path X = "data/contests/C*1.json"
  ∧ responses_for (contest_url X) (trace (snd run)) =
      [Body (Json Scenario.c1); Body (Json Scenario.c1)]
  ∧ fs (snd run) !! "data/contests/C*1.json" = None
  ∧ fs (snd run) !! "data/contests/C_1.json" = Some (Json Scenario.c1)
  ∧ drop 30 (trace (snd run)) =
      [EvExists "data/contests/C*1.json" false;
       EvGet (contest_url X) (Body (Json Scenario.c1));
       EvSleep d;
       EvMakedirs "data/contests";
       EvWrite "data/contests/C_1.json" (Json Scenario.c1)].
Proof.
  repeat apply conj; vm_compute; exact eq_refl.
Qed.

(** ** Invariants of a whole traversal

    A relation between the world before and the world after that is
    reflexive, transitive, and kept by the sleep of the retry loop and by
    the resolver at each of the four call sites, is kept by [download_data],
    whatever the fuel and however the run ends. *)

Lemma pure_getitem j k : pure (getitem j k).
Proof.
  intros w. destruct j; try reflexivity. simpl.
  destruct (assoc k fields); reflexivity.
Qed.

Lemma pure_getitem0 j : pure (getitem0 j).
Proof.
  intros w. destruct j as [| | |s|items|]; try reflexivity.
  - destruct s; reflexivity.
  - destruct items; reflexivity.
Qed.

Lemma pure_dict_values j : pure (dict_values j).
Proof. intros w. destruct j; reflexivity. Qed.

Lemma pure_py_iter j : pure (py_iter j).
Proof. intros w. unfold py_iter. destruct (json_items j); reflexivity. Qed.

Lemma pure_py_len j : pure (py_len j).
Proof. intros w. unfold py_len. destruct (json_len j); reflexivity. Qed.

Lemma pure_replace_slash j : pure (replace_slash j).
Proof. intros w. destruct j; reflexivity. Qed.

Lemma pure_add_json_suffix j : pure (add_json_suffix j).
Proof. intros w. destruct j; reflexivity. Qed.

Lemma pure_py_assert b : pure (py_assert b).
Proof. intros w. destruct b; reflexivity. Qed.

Lemma pure_ret {A} (a : A) : pure (ret a).
Proof. intros w. reflexivity. Qed.

Lemma pure_bind {A B} (m : M A) (k : A → M B) :
  pure m → (∀ a, pure (k a)) → pure (bind m k).
Proof.
  intros Hm Hk w. unfold bind. specialize (Hm w).
  destruct (m w) as [[a|e|] w']; simpl in Hm; subst; try reflexivity.
  apply Hk.
Qed.

Lemma pure_set_of_cc rows : ∀ acc, pure (set_of_cc rows acc).
Proof.
  induction rows as [|row rows IH]; intros acc; simpl.
  - apply pure_ret.
  - apply pure_bind; [apply pure_getitem|].
    intros cc. destruct (hashable cc); [apply IH|]. intros w. reflexivity.
Qed.

Section Invariant.

Variable R : world → world → Prop.
Hypothesis R_refl : ∀ w, R w w.
Hypothesis R_trans : ∀ w1 w2 w3, R w1 w2 → R w2 w3 → R w1 w3.

Lemma preserves_pure {A} (m : M A) : pure m → preserves R m.
Proof.
  intros Hm w r w' Hrun. specialize (Hm w). rewrite Hrun in Hm.
  simpl in Hm. subst. apply R_refl.
Qed.

Lemma preserves_bind {A B} (m : M A) (k : A → M B) :
  preserves R m → (∀ a, preserves R (k a)) → preserves R (bind m k).
Proof.
  intros Hm Hk w r w'. unfold bind.
  destruct (m w) as [[a|e|] w1] eqn:Hrun; intros Hrest.
  - eapply R_trans; [eapply Hm, Hrun | eapply Hk, Hrest].
  - injection Hrest as <- <-. eapply Hm, Hrun.
  - injection Hrest as <- <-. eapply Hm, Hrun.
Qed.

Lemma preserves_try {A} (body handler : M A) catches :
  preserves R body → preserves R handler →
  preserves R (try_except body catches handler).
Proof.
  intros Hbody Hhandler w r w'. unfold try_except.
  destruct (body w) as [[a|e|] w1] eqn:Hrun; intros Hrest.
  - injection Hrest as <- <-. eapply Hbody, Hrun.
  - destruct (catches e).
    + eapply R_trans; [eapply Hbody, Hrun | eapply Hhandler, Hrest].
    + injection Hrest as <- <-. eapply Hbody, Hrun.
  - injection Hrest as <- <-. eapply Hbody, Hrun.
Qed.

Lemma preserves_for_each {A} (l : list A) (body : A → M unit) :
  (∀ x, preserves R (body x)) → preserves R (for_each l body).
Proof.
  intros Hbody. induction l as [|x l IH]; simpl.
  - apply preserves_pure, pure_ret.
  - apply preserves_bind; [apply Hbody | intros _; exact IH].
Qed.

Lemma preserves_attempt_once {A} (attempt : M A) :
  preserves R attempt → preserves R (attempt_once attempt).
Proof.
  intros Hattempt. unfold attempt_once. apply preserves_try.
  - apply preserves_bind; [exact Hattempt|].
    intros a. apply preserves_pure, pure_ret.
  - apply preserves_pure, pure_ret.
Qed.

Hypothesis R_sleep : preserves R (time_sleep RETRY_WAIT).

Lemma preserves_retry {A} (attempt : M A) fuel :
  preserves R attempt → preserves R (retry_forever fuel attempt).
Proof.
  intros Hattempt. induction fuel as [|fuel IH]; simpl.
  - intros w r w' Hrun. injection Hrun as <- <-. apply R_refl.
  - apply preserves_try; [exact Hattempt|].
    apply preserves_bind; [exact R_sleep | intros _; exact IH].
Qed.

Variables (sess : session) (d : Q).

Hypothesis R_info : ∀ dir url,
  preserves R (load_or_download sess (info_path dir) (info_url url) d).
Hypothesis R_precinct : ∀ dir file_name url,
  preserves R (load_or_download sess (precinct_path dir file_name)
               (results_url url) d).
Hypothesis R_coc : ∀ dir url,
  preserves R (load_or_download sess (coc_path dir) (results_url url) d).
Hypothesis R_contest : ∀ c,
  preserves R (load_or_download sess (contest_path c) (contest_url c) d).

Ltac step :=
  first
    [ apply preserves_bind; [|intro]
    | apply preserves_pure;
      first [ apply pure_getitem | apply pure_getitem0 | apply pure_dict_values
            | apply pure_py_iter | apply pure_py_len | apply pure_replace_slash
            | apply pure_add_json_suffix | apply pure_py_assert
            | apply pure_set_of_cc | apply pure_ret ] ].

Lemma preserves_download_contest fuel c :
  preserves R (download_contest fuel sess d c).
Proof.
  unfold download_contest. repeat step.
  apply preserves_retry, R_contest.
Qed.

Lemma preserves_download_contests_of fuel results :
  preserves R (download_contests_of fuel sess d results).
Proof.
  unfold download_contests_of. repeat step.
  apply preserves_for_each. intros c. apply preserves_download_contest.
Qed.

Lemma preserves_download_precinct fuel dir precinct :
  preserves R (download_precinct fuel sess dir d precinct).
Proof.
  unfold download_precinct. repeat step.
  - apply preserves_attempt_once, R_precinct.
  - match goal with
    | |- preserves R (match ?r with _ => _ end) => destruct r
    end.
    + apply preserves_download_contests_of.
    + apply preserves_pure, pure_ret.
Qed.

Lemma preserves_download_coc dir coc :
  preserves R (download_coc sess dir d coc).
Proof.
  unfold download_coc. repeat step.
  apply preserves_attempt_once, R_coc.
Qed.

Lemma preserves_terminal_data fuel dir info :
  preserves R (terminal_data fuel sess dir d info).
Proof.
  unfold terminal_data. step; [step|].
  match goal with |- preserves R (if ?b then _ else _) => destruct b end.
  - repeat step. apply preserves_for_each. intros p.
    apply preserves_download_precinct.
  - step; [step|]. step.
    + match goal with |- preserves R (if ?b then _ else _) => destruct b end;
        repeat step.
    + repeat step. apply preserves_for_each. intros c.
      apply preserves_download_coc.
Qed.

Lemma preserves_visit_node recur fuel dir info :
  (∀ dir' url', preserves R (recur dir' url')) →
  preserves R (visit_node recur fuel sess dir d info).
Proof.
  intros Hrecur. unfold visit_node.
  step; [step|]. step; [step|]. step.
  - apply preserves_for_each. intros child. unfold visit_child.
    repeat step. apply Hrecur.
  - apply preserves_terminal_data.
Qed.

Lemma preserves_download_data fuel :
  ∀ dir url, preserves R (download_data fuel sess dir url d).
Proof.
  induction fuel as [|fuel IH]; intros dir url; simpl.
  - intros w r w' Hrun. injection Hrun as <- <-. apply R_refl.
  - apply preserves_bind.
    + apply preserves_retry, R_info.
    + intros info. apply preserves_visit_node. exact IH.
Qed.

End Invariant.

(** ** The answers to the requests of a run *)

Lemma responses_of_app sel l1 l2 :
  responses_of sel (l1 ++ l2) = responses_of sel l1 ++ responses_of sel l2.
Proof.
  induction l1 as [|e l1 IH]; simpl; [reflexivity|].
  destruct e; try exact IH.
  destruct (sel url); simpl; rewrite IH; reflexivity.
Qed.

Lemma responses_of_parsed sel new :
  existsb parsed (responses_of sel new) = true ↔
  ∃ u j, sel u = true ∧ EvGet u (Body (Json j)) ∈ new.
Proof.
  induction new as [|e new IH]; simpl.
  - split; [discriminate|]. intros (u & j & _ & Hin).
    apply elem_of_nil in Hin. contradiction.
  - assert (Htail : (∃ u j, sel u = true ∧ EvGet u (Body (Json j)) ∈ new) →
                    ∃ u j, sel u = true ∧ EvGet u (Body (Json j)) ∈ e :: new).
    { intros (u & j & Hu & Hin). exists u, j. split; [exact Hu|].
      apply elem_of_cons. right. exact Hin. }
    destruct e as [| |url r| | |];
      try (rewrite IH; split; [exact Htail|];
           intros (u & j & Hu & Hin);
           apply elem_of_cons in Hin as [Hin|Hin]; [discriminate|]; eauto).
    destruct (sel url) eqn:Hsel; simpl.
    + rewrite orb_true_iff, IH. split.
      * intros [Hr|Hrest]; [|exact (Htail Hrest)].
        destruct r as [[j|]| |]; try discriminate.
        exists url, j. split; [exact Hsel|]. apply elem_of_cons. left.
        reflexivity.
      * intros (u & j & Hu & Hin).
        apply elem_of_cons in Hin as [Hin|Hin]; [|eauto].
        injection Hin as <- <-. left. reflexivity.
    + rewrite IH. split; [exact Htail|].
      intros (u & j & Hu & Hin).
      apply elem_of_cons in Hin as [Hin|Hin]; [|eauto].
      injection Hin as <- <-. congruence.
Qed.

Lemma stops_at_success_app rs1 rs2 :
  stops_at_success rs1 = true →
  (existsb parsed rs1 = true → rs2 = []) →
  stops_at_success rs2 = true →
  stops_at_success (rs1 ++ rs2) = true.
Proof.
  induction rs1 as [|r rs1 IH]; simpl; intros H1 Hlast H2; [exact H2|].
  destruct (parsed r); simpl in *.
  - rewrite (Hlast eq_refl), app_nil_r. exact H1.
  - apply IH; assumption.
Qed.

Lemma stops_at_success_last rs pre r post :
  stops_at_success rs = true →
  rs = pre ++ r :: post →
  parsed r = true →
  post = [].
Proof.
  revert rs. induction pre as [|r0 pre IH]; intros rs Hstop -> Hr; simpl in Hstop.
  - rewrite Hr in Hstop. destruct post; [reflexivity|discriminate].
  - destruct (parsed r0).
    + destruct pre; discriminate.
    + eapply IH; [exact Hstop|reflexivity|exact Hr].
Qed.

Lemma stops_at_success_count rs :
  stops_at_success rs = true →
  (length (filter (λ r, parsed r = true) rs) ≤ 1)%nat.
Proof.
  induction rs as [|r rs IH]; simpl; intros Hstop; [lia|].
  rewrite filter_cons. destruct (parsed r) eqn:Hr.
  - destruct rs; [|discriminate]. rewrite decide_True by reflexivity.
    simpl. lia.
  - rewrite decide_False by discriminate. apply IH, Hstop.
Qed.

(** Which call sites can ask for the locator of a contest document. *)

Lemma string_app_inv_head (p a b : string) : p +:+ a = p +:+ b → a = b.
Proof.
  induction p as [|c p IH]; simpl; intros H; [exact H|].
  injection H as H. exact (IH H).
Qed.

Lemma contest_url_eq c :
  contest_url c = (BASE_URL +:+ "/contests/") +:+ (format_value c +:+ ".json").
Proof. reflexivity. Qed.

Lemma info_url_eq url :
  info_url url = (BASE_URL +:+ "/") +:+ ("regions/" +:+ url).
Proof. reflexivity. Qed.

Lemma results_url_eq url :
  results_url url = (BASE_URL +:+ "/") +:+ ("results/" +:+ url).
Proof. reflexivity. Qed.

Lemma contest_url_eq' c :
  contest_url c =
  (BASE_URL +:+ "/") +:+ ("contests/" +:+ (format_value c +:+ ".json")).
Proof. reflexivity. Qed.

Lemma info_url_not_contest url c : info_url url ≠ contest_url c.
Proof.
  rewrite info_url_eq, contest_url_eq'. intros H.
  apply string_app_inv_head in H. discriminate H.
Qed.

Lemma results_url_not_contest url c : results_url url ≠ contest_url c.
Proof.
  rewrite results_url_eq, contest_url_eq'. intros H.
  apply string_app_inv_head in H. discriminate H.
Qed.

Lemma contest_url_path c c' :
  contest_url c = contest_url c' → contest_path c = contest_path c'.
Proof.
  rewrite !contest_url_eq. intros H. apply string_app_inv_head in H.
  unfold contest_path. rewrite H. reflexivity.
Qed.

(** After the resolver has returned a value for a path without asterisk,
    the file is there and holds that value. *)
Lemma load_or_download_stores sess path url d w j w' :
  Py.str_replace "*" "_" path = path →
  load_or_download sess path url d w = (Ok j, w') →
  fs w' !! path = Some (Json j).
Proof.
  intros Hclean Hrun.
  destruct (fs w !! path) as [t|] eqn:Hfile.
  - rewrite (load_or_download_hit _ _ _ _ _ _ Hfile) in Hrun.
    destruct t as [j'|s]; simpl in Hrun; [|discriminate].
    injection Hrun as <- <-. exact Hfile.
  - rewrite (load_or_download_miss _ _ _ _ _ Hfile) in Hrun. simpl in Hrun.
    destruct (sess (requests_so_far w) url) as [[j'|s]| |]; try discriminate.
    destruct (store_failure d (fs w) path) as [[e done]|]; try discriminate.
    injection Hrun as <- <-. simpl. rewrite Hclean. apply lookup_insert_eq.
Qed.

Lemma retry_forever_stores sess path url d fuel :
  Py.str_replace "*" "_" path = path →
  ∀ w j w',
    retry_forever fuel (load_or_download sess path url d) w = (Ok j, w') →
    fs w' !! path = Some (Json j).
Proof.
  intros Hclean. induction fuel as [|fuel IH]; intros w j w' Hrun.
  - discriminate.
  - rewrite retry_forever_step in Hrun.
    destruct (load_or_download sess path url d w) as [[j0|e|] w0] eqn:Hload.
    + injection Hrun as <- <-.
      eapply load_or_download_stores; eassumption.
    + destruct (is_ValueError e); [|discriminate].
      eapply IH, Hrun.
    + discriminate.
Qed.

(** The retries show in the number of requests: when the contest document
    is not yet there at the first request made for it, the request is
    repeated; the traversal of the worked example then makes two requests
    for contest [C1], of which one succeeds. *)
Lemma contest_requested_twice :
  let run := download_data 4 Scenario.contest_late "" "root.json" (1 # 2)
               Scenario.empty_world in
  fst run = Ok tt
  ∧ responses_for (contest_url (JStr "C1")) (trace (snd run)) =
      [Scenario.not_found; Body (Json Scenario.c1)]
  ∧ length (responses_for (contest_url (JStr "C1")) (trace (snd run))) ≠ 1.
Proof.
  repeat apply conj; vm_compute; [exact eq_refl | exact eq_refl | discriminate].
Qed.

(** The end-to-end scenario of the specification: the return of precinct
    [p1] names contest [C1] twice; the run makes one request for
    [contests/C1.json] and none for any other contest. *)
Example end_to_end_scenario :
  let run := download_data 4 Scenario.upstream "" "root.json" (1 # 2)
               Scenario.empty_world in
  fst run = Ok tt
  ∧ filter (λ e, is_get e = true) (trace (snd run)) =
      [EvGet (info_url "root.json") (Body (Json Scenario.root_info));
       EvGet (info_url "a.json") (Body (Json Scenario.a_info));
       EvGet (results_url "res1.json") (Body (Json Scenario.res1));
       EvGet (contest_url (JStr "C1")) (Body (Json Scenario.c1))].
Proof.
  repeat apply conj; vm_compute; exact eq_refl.
Qed.

(** ** An induction principle for the traversal

    A property of computations that holds of returning, raising and running
    out of fuel, is kept by sequencing and by the handlers of [ValueError],
    and holds of the sleep of the retry loop and of the resolver at each of
    the four call sites, holds of [download_data]. *)

Section Traversal_induction.

Variable P : ∀ A : Type, M A → Prop.

Hypothesis P_ret : ∀ A (a : A), P A (ret a).
Hypothesis P_raise : ∀ A e, P A (raise e).
Hypothesis P_diverge : ∀ A, P A diverge.
Hypothesis P_bind : ∀ A B (m : M A) (k : A → M B),
  P A m → (∀ a, P B (k a)) → P B (bind m k).
Hypothesis P_try : ∀ A (body handler : M A),
  P A body → P A handler → P A (try_except body is_ValueError handler).
Hypothesis P_sleep : P unit (time_sleep RETRY_WAIT).

Variables (sess : session) (d : Q).

Hypothesis P_info : ∀ dir url,
  P json (load_or_download sess (info_path dir) (info_url url) d).
Hypothesis P_precinct : ∀ dir file_name url,
  P json (load_or_download sess (precinct_path dir file_name)
            (results_url url) d).
Hypothesis P_coc : ∀ dir url,
  P json (load_or_download sess (coc_path dir) (results_url url) d).
Hypothesis P_contest : ∀ c,
  P json (load_or_download sess (contest_path c) (contest_url c) d).

Lemma P_getitem j k : P json (getitem j k).
Proof.
  destruct j; simpl; try apply P_raise.
  destruct (assoc k fields); [apply P_ret | apply P_raise].
Qed.

Lemma P_getitem0 j : P json (getitem0 j).
Proof.
  destruct j as [| | |s|items|]; simpl; try apply P_raise.
  - destruct s; [apply P_raise | apply P_ret].
  - destruct items; [apply P_raise | apply P_ret].
Qed.

Lemma P_dict_values j : P (list json) (dict_values j).
Proof. destruct j; simpl; first [apply P_ret | apply P_raise]. Qed.

Lemma P_py_iter j : P (list json) (py_iter j).
Proof.
  unfold py_iter. destruct (json_items j); [apply P_ret | apply P_raise].
Qed.

Lemma P_py_len j : P nat (py_len j).
Proof.
  unfold py_len. destruct (json_len j); [apply P_ret | apply P_raise].
Qed.

Lemma P_replace_slash j : P string (replace_slash j).
Proof. destruct j; simpl; first [apply P_ret | apply P_raise]. Qed.

Lemma P_add_json_suffix j : P string (add_json_suffix j).
Proof. destruct j; simpl; first [apply P_ret | apply P_raise]. Qed.

Lemma P_py_assert b : P unit (py_assert b).
Proof. destruct b; [apply P_ret | apply P_raise]. Qed.

Lemma P_set_of_cc rows : ∀ acc, P (list json) (set_of_cc rows acc).
Proof.
  induction rows as [|row rows IH]; intros acc; simpl.
  - apply P_ret.
  - apply P_bind; [apply P_getitem|].
    intros cc. destruct (hashable cc); [apply IH | apply P_raise].
Qed.

Lemma P_for_each {A} (l : list A) (body : A → M unit) :
  (∀ x, P unit (body x)) → P unit (for_each l body).
Proof.
  intros Hbody. induction l as [|x l IH]; simpl.
  - apply P_ret.
  - apply P_bind; [apply Hbody | intros _; exact IH].
Qed.

Lemma P_attempt_once {A} (attempt : M A) :
  P A attempt → P (option A) (attempt_once attempt).
Proof.
  intros Hattempt. unfold attempt_once. apply P_try.
  - apply P_bind; [exact Hattempt | intros a; apply P_ret].
  - apply P_ret.
Qed.

Lemma P_retry {A} (attempt : M A) fuel :
  P A attempt → P A (retry_forever fuel attempt).
Proof.
  intros Hattempt. induction fuel as [|fuel IH]; simpl.
  - apply P_diverge.
  - apply P_try; [exact Hattempt|].
    apply P_bind; [exact P_sleep | intros _; exact IH].
Qed.

Ltac P_step :=
  first
    [ apply P_bind; [|intro]
    | apply P_getitem | apply P_getitem0 | apply P_dict_values
    | apply P_py_iter | apply P_py_len | apply P_replace_slash
    | apply P_add_json_suffix | apply P_py_assert | apply P_set_of_cc
    | apply P_ret ].

Lemma P_download_contest fuel c : P unit (download_contest fuel sess d c).
Proof.
  unfold download_contest. apply P_bind; [|intro; apply P_ret].
  apply P_retry, P_contest.
Qed.

Lemma P_download_contests_of fuel results :
  P unit (download_contests_of fuel sess d results).
Proof.
  unfold download_contests_of. do 3 (apply P_bind; [P_step|intro]).
  apply P_for_each. intros c. apply P_download_contest.
Qed.

Lemma P_download_precinct fuel dir precinct :
  P unit (download_precinct fuel sess dir d precinct).
Proof.
  unfold download_precinct. do 9 (apply P_bind; [P_step|intro]).
  apply P_bind; [apply P_attempt_once, P_precinct|].
  intros [results|]; [apply P_download_contests_of | apply P_ret].
Qed.

Lemma P_download_coc dir coc : P unit (download_coc sess dir d coc).
Proof.
  unfold download_coc. do 7 (apply P_bind; [P_step|intro]).
  apply P_bind; [apply P_attempt_once, P_coc | intro; apply P_ret].
Qed.

Lemma P_terminal_data fuel dir info :
  P unit (terminal_data fuel sess dir d info).
Proof.
  unfold terminal_data. apply P_bind; [P_step|intros can].
  destruct (eq_str can "Barangay").
  - do 2 (apply P_bind; [P_step|intro]).
    apply P_for_each. intros p. apply P_download_precinct.
  - apply P_bind; [P_step|intros can'].
    apply P_bind.
    + destruct (eq_str can' "Country"); [apply P_ret|].
      do 2 (apply P_bind; [P_step|intro]). apply P_ret.
    + intros ok. do 3 (apply P_bind; [P_step|intro]).
      apply P_for_each. intros c. apply P_download_coc.
Qed.

Lemma P_visit_child recur dir child :
  (∀ dir' url', P unit (recur dir' url')) →
  P unit (visit_child recur dir child).
Proof.
  intros Hrecur. unfold visit_child. do 4 (apply P_bind; [P_step|intro]).
  apply Hrecur.
Qed.

Lemma P_visit_node recur fuel dir info :
  (∀ dir' url', P unit (recur dir' url')) →
  P unit (visit_node recur fuel sess dir d info).
Proof.
  intros Hrecur. unfold visit_node. do 2 (apply P_bind; [P_step|intro]).
  apply P_bind; [|intro; apply P_terminal_data].
  apply P_for_each. intros child. apply P_visit_child, Hrecur.
Qed.

Theorem download_data_induction fuel :
  ∀ dir url, P unit (download_data fuel sess dir url d).
Proof.
  induction fuel as [|fuel IH]; intros dir url; simpl.
  - apply P_diverge.
  - apply P_bind; [apply P_retry, P_info|].
    intros info. apply P_visit_node, IH.
Qed.

End Traversal_induction.

(** ** What comes before a request and before a write *)

Lemma preceded_mono d e pre0 pre :
  preceded d e pre → preceded d e (pre0 ++ pre).
Proof.
  destruct e; simpl; try tauto.
  - intros (pre' & ->). exists (pre0 ++ pre'). apply app_assoc.
  - intros (pre' & p & ->). exists (pre0 ++ pre'), p. apply app_assoc.
  - intros [Hq|(Hq & pre' & u & j & ->)]; [left; exact Hq|].
    right. split; [exact Hq|]. exists (pre0 ++ pre'), u, j. apply app_assoc.
  - intros (pre' & q & u & j & -> & Hp & Ht).
    exists (pre0 ++ pre'), q, u, j. split; [apply app_assoc | auto].
Qed.

Lemma well_preceded_nil d : well_preceded d [].
Proof. intros pre e post H. destruct pre; discriminate H. Qed.

Lemma well_preceded_app d l1 l2 :
  well_preceded d l1 → well_preceded d l2 → well_preceded d (l1 ++ l2).
Proof.
  intros H1 H2 pre e post Heq.
  apply app_eq_app in Heq as [l [[-> Hl]|[-> Hl]]].
  - destruct l as [|x l].
    + simpl in Hl. rewrite <- (app_nil_r pre). apply preceded_mono.
      apply (H2 [] e post). symmetry. exact Hl.
    + injection Hl as -> ->. apply (H1 pre x l). reflexivity.
  - apply preceded_mono. apply (H2 l e post). exact Hl.
Qed.

Lemma well_preceded_snoc d l e :
  well_preceded d l → preceded d e l → well_preceded d (l ++ [e]).
Proof.
  intros Hl He pre e' post Heq.
  destruct post as [|x post _] using rev_ind.
  - apply app_inj_tail in Heq as [-> ->]. exact He.
  - change (pre ++ e' :: post ++ [x]) with (pre ++ (e' :: post) ++ [x]) in Heq.
    rewrite app_assoc in Heq. apply app_inj_tail in Heq as [-> _].
    apply (Hl pre e' post). reflexivity.
Qed.

Lemma appends_well_preceded_refl d w : appends_well_preceded d w w.
Proof.
  exists []. rewrite app_nil_r. split; [reflexivity | apply well_preceded_nil].
Qed.

Lemma appends_well_preceded_trans d w1 w2 w3 :
  appends_well_preceded d w1 w2 → appends_well_preceded d w2 w3 →
  appends_well_preceded d w1 w3.
Proof.
  intros (n1 & H1 & B1) (n2 & H2 & B2). exists (n1 ++ n2).
  rewrite H2, H1, <- app_assoc. split; [reflexivity|].
  apply well_preceded_app; assumption.
Qed.

(** The effects of one call of the resolver, event after event. *)
Ltac event_by_event :=
  repeat match goal with
         | |- well_preceded _ [] => apply well_preceded_nil
         | |- well_preceded ?d [?a] =>
             change [a] with ([] ++ [a]); apply well_preceded_snoc
         | |- well_preceded ?d [?a; ?b] =>
             change [a; b] with ([a] ++ [b]); apply well_preceded_snoc
         | |- well_preceded ?d [?a; ?b; ?c] =>
             change [a; b; c] with ([a; b] ++ [c]); apply well_preceded_snoc
         | |- well_preceded ?d [?a; ?b; ?c; ?e] =>
             change [a; b; c; e] with ([a; b; c] ++ [e]);
             apply well_preceded_snoc
         | |- well_preceded ?d [?a; ?b; ?c; ?e; ?f] =>
             change [a; b; c; e; f] with ([a; b; c; e] ++ [f]);
             apply well_preceded_snoc
         end.

Lemma load_or_download_well_preceded sess path url d :
  preserves (appends_well_preceded d) (load_or_download sess path url d).
Proof.
  intros w r w' Hrun.
  destruct (load_or_download_cases _ _ _ _ _ _ _ Hrun)
    as [(t & Hfile & -> & ->)
       |[(j & Hfile & Hresp & Hstore & -> & ->)
        |(e & done & Hfile & Hfail & -> & ->)]];
    (eexists; split; [reflexivity|]).
  - event_by_event; simpl; auto. exists []. reflexivity.
  - unfold fetched. event_by_event; simpl; auto.
    + exists [], path. reflexivity.
    + right. split; [reflexivity|]. exists [EvExists path false], url, j.
      reflexivity.
    + exists [], path, url, j. auto.
  - destruct (failed_fetch_done _ _ _ _ _ _ Hfail)
      as [->|(j & Hresp & [->| ->])]; try rewrite Hresp;
      event_by_event; simpl; auto;
      try (exists [], path; reflexivity);
      right; (split; [reflexivity|]);
      exists [EvExists path false], url, j; reflexivity.
Qed.

Lemma download_data_well_preceded sess d fuel dir url :
  preserves (appends_well_preceded d) (download_data fuel sess dir url d).
Proof.
  apply preserves_download_data.
  - apply appends_well_preceded_refl.
  - apply appends_well_preceded_trans.
  - intros w r w' Hrun. injection Hrun as <- <-.
    eexists. split; [reflexivity|]. event_by_event. left. reflexivity.
  - intros dir' url'. apply load_or_download_well_preceded.
  - intros dir' f url'. apply load_or_download_well_preceded.
  - intros dir' url'. apply load_or_download_well_preceded.
  - intros c. apply load_or_download_well_preceded.
Qed.

(** In a traversal, however it ends, no effect comes out of place.  A
    request is made only right after the probe of a path that was not
    found, and a file is read only right after the probe that found it.
    The delay [download_delay] is slept only right after a request whose
    body parsed; every other sleep is the wait of a retry loop.  A file is
    written only right after a request whose body parsed, the delay and
    the making of its directory, and it receives that body at the sanitised
    form of the path that was probed. *)
Theorem effects_are_well_preceded sess d fuel dir url w :
  ∃ new,
    trace (snd (download_data fuel sess dir url d w)) = trace w ++ new
    ∧ ∀ pre e post, new = pre ++ e :: post → preceded d e pre.
Proof.
  destruct (download_data fuel sess dir url d w) as [r w'] eqn:Hrun.
  exact (download_data_well_preceded _ _ _ _ _ _ _ _ Hrun).
Qed.

Lemma occurs_str_replace a b s :
  a ≠ b → occurs a (Py.str_replace a b s) = false.
Proof.
  intros Hab. induction s as [|c s IH]; simpl; [reflexivity|].
  rewrite IH, orb_false_r.
  destruct (Ascii.eqb_spec c a) as [->|Hca].
  - apply Ascii.eqb_neq. congruence.
  - apply Ascii.eqb_neq. exact Hca.
Qed.

Lemma load_or_download_creates_sanitised sess path url d :
  preserves creates_sanitised (load_or_download sess path url d).
Proof.
  intros w r w' Hrun.
  destruct (load_or_download_cases _ _ _ _ _ _ _ Hrun)
    as [(t & Hfile & -> & ->)
       |[(j & Hfile & Hresp & Hstore & -> & ->)
        |(e & done & Hfile & Hfail & -> & ->)]]; split; simpl.
  - intros p Hnone [x Hsome]. congruence.
  - eexists. split; [reflexivity|]. intros p t' Hin.
    rewrite !elem_of_cons, elem_of_nil in Hin.
    destruct Hin as [?|[?|[]]]; discriminate.
  - intros p Hnone Hsome. apply lookup_insert_is_Some in Hsome.
    destruct Hsome as [<-|[_ [x Hx]]]; [|congruence].
    apply occurs_str_replace. discriminate.
  - eexists. split; [reflexivity|]. intros p t' Hin. unfold fetched in Hin.
    rewrite !elem_of_cons, elem_of_nil in Hin.
    destruct Hin as [?|[?|[?|[?|[Hin|[]]]]]]; try discriminate.
    injection Hin as -> _. apply occurs_str_replace. discriminate.
  - intros p Hnone [x Hsome]. congruence.
  - eexists. split; [reflexivity|]. intros p t' Hin.
    destruct (failed_fetch_done _ _ _ _ _ _ Hfail)
      as [->|(j & _ & [->| ->])];
      rewrite !elem_of_cons, elem_of_nil in Hin;
      repeat (destruct Hin as [Hin|Hin]; [discriminate|]); contradiction.
Qed.

Lemma download_data_creates_sanitised sess d fuel dir url :
  preserves creates_sanitised (download_data fuel sess dir url d).
Proof.
  apply preserves_download_data.
  - intros w. split.
    + intros p Hnone [x Hsome]. congruence.
    + exists []. rewrite app_nil_r. split; [reflexivity|].
      intros p t Hin. apply elem_of_nil in Hin. contradiction.
  - intros w1 w2 w3 (F1 & n1 & H1 & W1) (F2 & n2 & H2 & W2). split.
    + intros p Hnone Hsome.
      destruct (fs w2 !! p) as [x|] eqn:Hmid.
      * apply F1; [exact Hnone | rewrite Hmid; eauto].
      * apply F2; assumption.
    + exists (n1 ++ n2). rewrite H2, H1, <- app_assoc.
      split; [reflexivity|]. intros p t Hin.
      apply elem_of_app in Hin as [Hin|Hin]; [eapply W1 | eapply W2];
        exact Hin.
  - intros w r w' Hrun. injection Hrun as <- <-. split.
    + simpl. intros p Hnone [x Hsome]. congruence.
    + eexists. split; [reflexivity|]. intros p t Hin.
      rewrite elem_of_cons, elem_of_nil in Hin.
      destruct Hin as [?|[]]; discriminate.
  - intros dir' url'. apply load_or_download_creates_sanitised.
  - intros dir' f url'. apply load_or_download_creates_sanitised.
  - intros dir' url'. apply load_or_download_creates_sanitised.
  - intros c. apply load_or_download_creates_sanitised.
Qed.

(** No file that a traversal creates, and no path that it writes to, has
    an asterisk in it, whatever the names in the descriptors. *)
Theorem no_asterisk_in_created_files sess d fuel dir url w :
  let w' := snd (download_data fuel sess dir url d w) in
  (∀ p, fs w !! p = None → is_Some (fs w' !! p) → occurs "*" p = false)
  ∧ ∃ new,
      trace w' = trace w ++ new
      ∧ ∀ p t, EvWrite p t ∈ new → occurs "*" p = false.
Proof.
  destruct (download_data fuel sess dir url d w) as [r w'] eqn:Hrun.
  exact (download_data_creates_sanitised _ _ _ _ _ _ _ _ Hrun).
Qed.

(** ** What a traversal leaves alone *)

Lemma load_or_download_keeps_files sess path url d :
  preserves keeps_files (load_or_download sess path url d).
Proof.
  intros w r w' Hrun.
  destruct (load_or_download_cases _ _ _ _ _ _ _ Hrun)
    as [(t & Hfile & -> & ->)
       |[(j & Hfile & Hresp & Hstore & -> & ->)
        |(e & done & Hfile & Hfail & -> & ->)]].
  - split; [auto|]. eexists. split; [reflexivity|]. auto.
  - split.
    + intros p Hp. simpl. rewrite lookup_insert_is_Some'. right. exact Hp.
    + eexists. split; [reflexivity|]. simpl. intros p t Hp.
      destruct (decide (Py.str_replace "*" "_" path = p)) as [Heq|Hne].
      * right. exists path. split; [|split].
        -- intros ->. congruence.
        -- exact Heq.
        -- apply elem_of_cons. left. reflexivity.
      * left. rewrite lookup_insert_ne by exact Hne. exact Hp.
  - split; [auto|]. eexists. split; [reflexivity|]. auto.
Qed.

Lemma download_data_keeps_files sess d fuel dir url :
  preserves keeps_files (download_data fuel sess dir url d).
Proof.
  apply preserves_download_data.
  - intros w. split; [auto|]. exists []. rewrite app_nil_r. auto.
  - intros w1 w2 w3 (M1 & n1 & H1 & K1) (M2 & n2 & H2 & K2).
    split; [auto|]. exists (n1 ++ n2).
    rewrite H2, H1, <- app_assoc. split; [reflexivity|].
    intros p t Hp. destruct (K1 p t Hp) as [Hmid|(q & Hq & Hs & Hin)].
    + destruct (K2 p t Hmid) as [Hend|(q & Hq & Hs & Hin)]; [auto|].
      right. exists q. rewrite elem_of_app. auto.
    + right. exists q. rewrite elem_of_app. auto.
  - intros w r w' Hrun. injection Hrun as <- <-. split; [auto|].
    eexists. split; [reflexivity|]. auto.
  - intros dir' url'. apply load_or_download_keeps_files.
  - intros dir' f url'. apply load_or_download_keeps_files.
  - intros dir' url'. apply load_or_download_keeps_files.
  - intros c. apply load_or_download_keeps_files.
Qed.

(** A traversal never removes a file, and it leaves the content of a file
    that was there at the start as it was, with one exception: the file is
    rewritten when the run probes a different path, one with an asterisk,
    that is not found and whose sanitised form is the path of that file. *)
Theorem existing_files_are_kept sess d fuel dir url w :
  let w' := snd (download_data fuel sess dir url d w) in
  (∀ p, is_Some (fs w !! p) → is_Some (fs w' !! p))
  ∧ ∃ new,
      trace w' = trace w ++ new
      ∧ ∀ p t,
          fs w !! p = Some t →
          fs w' !! p = Some t
          ∨ ∃ q, q ≠ p ∧ Py.str_replace "*" "_" q = p
                 ∧ EvExists q false ∈ new.
Proof.
  destruct (download_data fuel sess dir url d w) as [r w'] eqn:Hrun.
  exact (download_data_keeps_files _ _ _ _ _ _ _ _ Hrun).
Qed.

(** ** Running again after a run that stored all it fetched *)

Lemma count_app f l1 l2 : count f (l1 ++ l2) = count f l1 + count f l2.
Proof. unfold count. rewrite filter_app, length_app. reflexivity. Qed.

Lemma count_cons f e l :
  count f (e :: l) = (if f e then 1 else 0) + count f l.
Proof.
  unfold count. rewrite filter_cons. destruct (f e).
  - rewrite decide_True by reflexivity. reflexivity.
  - rewrite decide_False by discriminate. reflexivity.
Qed.

Lemma replays_constant {A} (m : M A) r :
  (∀ w, m w = (r, w)) → replays m.
Proof.
  intros Hm wa r' wb Hrun. rewrite Hm in Hrun. injection Hrun as <- <-.
  exists []. rewrite app_nil_r. split; [reflexivity|].
  split; [apply Nat.le_refl|]. intros _ _.
  split; [reflexivity|]. intros w _. exists [].
  rewrite app_nil_r, world_eta. split; [apply Hm | constructor].
Qed.

(** A computation [seq] that does what [first] does and stops there. *)
Lemma replays_stop {A B} (first : M A) (seq : M B) wa r1 wb (r : outcome B) :
  replays first →
  first wa = (r1, wb) →
  (∀ w w', first w = (r1, w') → seq w = (r, w')) →
  ∃ new,
    trace wb = trace wa ++ new
    ∧ (count is_write new ≤ count is_get new)%nat
    ∧ (Forall probe_clean new →
       (count is_get new ≤ count is_write new)%nat →
       fs wa ⊆ fs wb
       ∧ ∀ w, fs wb ⊆ fs w →
           ∃ quiet,
             seq w = (r, World (fs w) (trace w ++ quiet))
             ∧ Forall silent_event quiet).
Proof.
  intros Hfirst Hrun Hseq.
  destruct (Hfirst _ _ _ Hrun) as (n1 & Ht1 & Hc1 & H1).
  exists n1. split; [exact Ht1|]. split; [exact Hc1|].
  intros Hclean Hall. destruct (H1 Hclean Hall) as [S1 R1].
  split; [exact S1|]. intros w Hw. destruct (R1 w Hw) as (q1 & E1 & Q1).
  exists q1. rewrite (Hseq _ _ E1). auto.
Qed.

(** A computation [seq] that does what [first] does and then what [rest]
    does. *)
Lemma replays_then {A B} (first : M A) (rest seq : M B) wa r1 wm r wb :
  replays first →
  replays rest →
  first wa = (r1, wm) →
  rest wm = (r, wb) →
  (∀ w w', first w = (r1, w') → seq w = rest w') →
  ∃ new,
    trace wb = trace wa ++ new
    ∧ (count is_write new ≤ count is_get new)%nat
    ∧ (Forall probe_clean new →
       (count is_get new ≤ count is_write new)%nat →
       fs wa ⊆ fs wb
       ∧ ∀ w, fs wb ⊆ fs w →
           ∃ quiet,
             seq w = (r, World (fs w) (trace w ++ quiet))
             ∧ Forall silent_event quiet).
Proof.
  intros Hfirst Hrest Hrun1 Hrun2 Hseq.
  destruct (Hfirst _ _ _ Hrun1) as (n1 & Ht1 & Hc1 & H1).
  destruct (Hrest _ _ _ Hrun2) as (n2 & Ht2 & Hc2 & H2).
  exists (n1 ++ n2). split; [rewrite Ht2, Ht1, app_assoc; reflexivity|].
  rewrite !count_app. split; [lia|].
  intros Hclean Hall. apply Forall_app in Hclean as [C1 C2].
  destruct (H1 C1 ltac:(lia)) as [S1 R1].
  destruct (H2 C2 ltac:(lia)) as [S2 R2].
  split; [etrans; eassumption|].
  intros w Hw.
  destruct (R1 w ltac:(etrans; eassumption)) as (q1 & E1 & Q1).
  destruct (R2 (World (fs w) (trace w ++ q1)) Hw) as (q2 & E2 & Q2).
  exists (q1 ++ q2). rewrite (Hseq _ _ E1), E2. simpl.
  rewrite app_assoc. split; [reflexivity|]. apply Forall_app. auto.
Qed.

Lemma replays_bind {A B} (m : M A) (k : A → M B) :
  replays m → (∀ a, replays (k a)) → replays (bind m k).
Proof.
  intros Hm Hk wa r wb Hrun. unfold bind in Hrun.
  destruct (m wa) as [[a|e|] wm] eqn:Hfirst.
  - apply (replays_then m (k a) (bind m k) wa (Ok a) wm r wb);
      auto.
    intros w w' E. unfold bind. rewrite E. reflexivity.
  - injection Hrun as <- <-.
    apply (replays_stop m (bind m k) wa (Raise e) wm (Raise e)); auto.
    intros w w' E. unfold bind. rewrite E. reflexivity.
  - injection Hrun as <- <-.
    apply (replays_stop m (bind m k) wa Diverge wm Diverge); auto.
    intros w w' E. unfold bind. rewrite E. reflexivity.
Qed.

Lemma replays_try {A} (body handler : M A) catches :
  replays body → replays handler →
  replays (try_except body catches handler).
Proof.
  intros Hbody Hhandler wa r wb Hrun. unfold try_except in Hrun.
  destruct (body wa) as [[a|e|] wm] eqn:Hfirst.
  - injection Hrun as <- <-.
    apply (replays_stop body _ wa (Ok a) wm (Ok a)); auto.
    intros w w' E. unfold try_except. rewrite E. reflexivity.
  - destruct (catches e) eqn:Hcatch.
    + apply (replays_then body handler _ wa (Raise e) wm r wb); auto.
      intros w w' E. unfold try_except. rewrite E, Hcatch. reflexivity.
    + injection Hrun as <- <-.
      apply (replays_stop body _ wa (Raise e) wm (Raise e)); auto.
      intros w w' E. unfold try_except. rewrite E, Hcatch. reflexivity.
  - injection Hrun as <- <-.
    apply (replays_stop body _ wa Diverge wm Diverge); auto.
    intros w w' E. unfold try_except. rewrite E. reflexivity.
Qed.

Lemma replays_sleep q : replays (time_sleep q).
Proof.
  intros wa r wb Hrun. unfold time_sleep in *.
  destruct (Qle_bool 0 q); injection Hrun as <- <-.
  - exists [EvSleep q]. split; [reflexivity|].
    split; [apply Nat.le_refl|]. intros _ _.
    split; [reflexivity|]. intros w _. exists [EvSleep q].
    split; [reflexivity|]. repeat constructor.
  - exists []. rewrite app_nil_r. split; [reflexivity|].
    split; [apply Nat.le_refl|]. intros _ _.
    split; [reflexivity|]. intros w _. exists [].
    rewrite app_nil_r, world_eta. split; [reflexivity | constructor].
Qed.

Lemma replays_load_or_download sess path url d :
  replays (load_or_download sess path url d).
Proof.
  intros wa r wb Hrun.
  destruct (load_or_download_cases _ _ _ _ _ _ _ Hrun)
    as [(t & Hfile & -> & ->)
       |[(j & Hfile & Hresp & Hstore & -> & ->)
        |(e & done & Hfile & Hfail & -> & ->)]];
    (eexists; split; [reflexivity|]).
  - split; [apply Nat.le_refl|]. intros _ _.
    split; [reflexivity|]. simpl. intros w Hw.
    exists [EvExists path true; EvRead path].
    rewrite (load_or_download_hit _ _ _ _ _ t)
      by (eapply lookup_weaken; eassumption).
    split; [reflexivity|]. repeat constructor.
  - split; [apply Nat.le_refl|]. intros Hclean _.
    apply Forall_cons in Hclean as [Hpath _]. simpl in Hpath.
    rewrite Hpath. simpl. split; [apply insert_subseteq, Hfile|].
    intros w Hw. exists [EvExists path true; EvRead path].
    rewrite (load_or_download_hit _ _ _ _ _ (Json j)).
    + split; [reflexivity|]. repeat constructor.
    + eapply lookup_weaken; [|exact Hw]. apply lookup_insert_eq.
  - assert (Hcount : count is_write
                       (EvExists path false
                          :: EvGet url (sess (requests_so_far wa) url) :: done)
                     = 0
                     ∧ count is_get
                         (EvExists path false
                            :: EvGet url (sess (requests_so_far wa) url)
                            :: done) = 1).
    { destruct (failed_fetch_done _ _ _ _ _ _ Hfail)
        as [->|(j & _ & [->| ->])]; rewrite !count_cons; auto. }
    destruct Hcount as [-> ->]. split; [lia|]. intros _ Hall. lia.
Qed.

Lemma replays_download_data sess d fuel dir url :
  replays (download_data fuel sess dir url d).
Proof.
  apply (download_data_induction (@replays)).
  - intros A a. apply (replays_constant _ (Ok a)). reflexivity.
  - intros A e. apply (replays_constant _ (Raise e)). reflexivity.
  - intros A. apply (replays_constant _ Diverge). reflexivity.
  - intros A B m k. apply replays_bind.
  - intros A body handler. apply replays_try.
  - apply replays_sleep.
  - intros. apply replays_load_or_download.
  - intros. apply replays_load_or_download.
  - intros. apply replays_load_or_download.
  - intros. apply replays_load_or_download.
Qed.

(** Idempotence, where the code has it.  Take a run that probed no path
    with an asterisk and wrote a file for each request it made: none of
    its requests was answered by a body that does not parse, and nothing
    stood in the way of the delay, of the directory or of the file.  Such a
    run only added files; and a second run, on the resulting storage or on
    any storage that contains it, ends in the same way as the first
    without a single request, write or directory creation, and leaves the
    storage as it is, whatever the upstream has become. *)
Theorem stored_run_replays_silently sess d fuel dir url w1 r w2 new w :
  download_data fuel sess dir url d w1 = (r, w2) →
  trace w2 = trace w1 ++ new →
  Forall probe_clean new →
  (count is_get new ≤ count is_write new)%nat →
  fs w2 ⊆ fs w →
  fs w1 ⊆ fs w2
  ∧ ∃ quiet,
      download_data fuel sess dir url d w
        = (r, World (fs w) (trace w ++ quiet))
      ∧ Forall silent_event quiet.
Proof.
  intros Hrun Htrace Hclean Hall Hw.
  destruct (replays_download_data sess d fuel dir url _ _ _ Hrun)
    as (new' & Htrace' & _ & Hreplay).
  assert (new' = new) as ->.
  { rewrite Htrace in Htrace'. eapply app_inv_head, eq_sym, Htrace'. }
  destruct (Hreplay Hclean Hall) as [Hgrow Hagain].
  split; [exact Hgrow | exact (Hagain w Hw)].
Qed.

Lemma stored_run_replays_silently_witness :
  let d := (1 # 2)%Q in
  let run := download_data 4 Scenario.upstream "" "root.json" d
               Scenario.empty_world in
  let again := World (fs (snd run)) [] in
  fs Scenario.empty_world ⊆ fs (snd run)
  ∧ ∃ quiet,
      download_data 4 Scenario.upstream "" "root.json" d again
        = (fst run, World (fs again) (trace again ++ quiet))
      ∧ Forall silent_event quiet.
Proof.
  intros d run again.
  apply (stored_run_replays_silently Scenario.upstream d 4 "" "root.json"
           Scenario.empty_world (fst run) (snd run) (trace (snd run)) again).
  - apply surjective_pairing.
  - reflexivity.
  - vm_compute.
    repeat (constructor; [first [reflexivity | exact I] |]). constructor.
  - vm_compute. lia.
  - reflexivity.
Defined.

(** ** A failure of the transport *)

Lemma no_unreachable_app l1 l2 :
  no_unreachable l1 → no_unreachable l2 → no_unreachable (l1 ++ l2).
Proof.
  intros H1 H2 u Hin. apply elem_of_app in Hin as [Hin|Hin];
    [eapply H1 | eapply H2]; exact Hin.
Qed.

Lemma no_unreachable_nil : no_unreachable [].
Proof. intros u Hin. apply elem_of_nil in Hin. exact Hin. Qed.

Lemma ends_at_unreachable_constant {A} (m : M A) r :
  (∀ w, m w = (r, w)) → ends_at_unreachable m.
Proof.
  intros Hm w r' w' Hrun. rewrite Hm in Hrun. injection Hrun as <- <-.
  exists []. rewrite app_nil_r. split; [reflexivity|]. left.
  apply no_unreachable_nil.
Qed.

(** What follows a part of the run that did not end with an exception
    caught or with a value keeps the property. *)
Lemma ends_at_unreachable_then {A B} (first : M A) (rest : M B) w r1 w1 r w' :
  ends_at_unreachable first →
  ends_at_unreachable rest →
  first w = (r1, w1) →
  r1 ≠ Raise ConnectionError →
  rest w1 = (r, w') →
  ∃ new,
    trace w' = trace w ++ new
    ∧ (no_unreachable new
       ∨ r = Raise ConnectionError
         ∧ ∃ pre u, new = pre ++ [EvGet u Unreachable] ∧ no_unreachable pre).
Proof.
  intros Hfirst Hrest H1 Hr1 H2.
  destruct (Hfirst _ _ _ H1) as (n1 & Ht1 & [C1|(E1 & _)]); [|contradiction].
  destruct (Hrest _ _ _ H2) as (n2 & Ht2 & [C2|(E2 & pre & u & Hn2 & Cpre)]).
  - exists (n1 ++ n2). rewrite Ht2, Ht1, app_assoc. split; [reflexivity|].
    left. apply no_unreachable_app; assumption.
  - exists (n1 ++ n2). rewrite Ht2, Ht1, app_assoc. split; [reflexivity|].
    right. split; [exact E2|]. exists (n1 ++ pre), u.
    rewrite Hn2, app_assoc. split; [reflexivity|].
    apply no_unreachable_app; assumption.
Qed.

Lemma ends_at_unreachable_bind {A B} (m : M A) (k : A → M B) :
  ends_at_unreachable m → (∀ a, ends_at_unreachable (k a)) →
  ends_at_unreachable (bind m k).
Proof.
  intros Hm Hk w r w' Hrun. unfold bind in Hrun.
  destruct (m w) as [[a|e|] w1] eqn:Hfirst.
  - eapply (ends_at_unreachable_then m (k a)); eauto; discriminate.
  - injection Hrun as <- <-.
    destruct (Hm _ _ _ Hfirst) as (n1 & Ht1 & [C1|(E1 & Hlast)]).
    + exists n1. auto.
    + injection E1 as ->. exists n1. auto.
  - injection Hrun as <- <-.
    destruct (Hm _ _ _ Hfirst) as (n1 & Ht1 & [C1|(E1 & _)]);
      [|discriminate].
    exists n1. auto.
Qed.

Lemma ends_at_unreachable_try {A} (body handler : M A) :
  ends_at_unreachable body → ends_at_unreachable handler →
  ends_at_unreachable (try_except body is_ValueError handler).
Proof.
  intros Hbody Hhandler w r w' Hrun. unfold try_except in Hrun.
  destruct (body w) as [[a|e|] w1] eqn:Hfirst.
  - injection Hrun as <- <-.
    destruct (Hbody _ _ _ Hfirst) as (n1 & Ht1 & [C1|(E1 & _)]);
      [|discriminate].
    exists n1. auto.
  - destruct (is_ValueError e) eqn:Hcatch.
    + eapply (ends_at_unreachable_then body handler); eauto;
        intros Heq; injection Heq as ->; discriminate Hcatch.
    + injection Hrun as <- <-. eapply Hbody, Hfirst.
  - injection Hrun as <- <-.
    destruct (Hbody _ _ _ Hfirst) as (n1 & Ht1 & [C1|(E1 & _)]);
      [|discriminate].
    exists n1. auto.
Qed.

Lemma ends_at_unreachable_load_or_download sess path url d :
  ends_at_unreachable (load_or_download sess path url d).
Proof.
  intros w r w' Hrun.
  destruct (load_or_download_cases _ _ _ _ _ _ _ Hrun)
    as [(t & Hfile & -> & ->)
       |[(j & Hfile & Hresp & Hstore & -> & ->)
        |(e & done & Hfile & Hfail & -> & ->)]];
    (eexists; split; [reflexivity|]).
  - left. intros u Hin. rewrite !elem_of_cons, elem_of_nil in Hin.
    destruct Hin as [?|[?|[]]]; discriminate.
  - left. intros u Hin. unfold fetched in Hin.
    rewrite !elem_of_cons, elem_of_nil in Hin.
    destruct Hin as [?|[?|[?|[?|[?|[]]]]]]; discriminate.
  - destruct (failed_fetch_transport _ _ _ _ _ _ Hfail) as [Hthere Hback].
    destruct (sess (requests_so_far w) url) as [[j|s]| |] eqn:Hresp.
    + left. intros u Hin.
      destruct (failed_fetch_done _ _ _ _ _ _ Hfail)
        as [->|(j' & _ & [->| ->])];
        rewrite !elem_of_cons, elem_of_nil in Hin;
        repeat (destruct Hin as [Hin|Hin]; [discriminate|]); contradiction.
    + destruct Hfail as [-> ->]. left. intros u Hin.
      rewrite !elem_of_cons, elem_of_nil in Hin.
      destruct Hin as [?|[?|[]]]; discriminate.
    + destruct (Hthere eq_refl) as [-> ->]. right. split; [reflexivity|].
      exists [EvExists path false], url. split; [reflexivity|].
      intros u Hin. rewrite elem_of_cons, elem_of_nil in Hin.
      destruct Hin as [?|[]]; discriminate.
    + destruct Hfail as [-> ->]. left. intros u Hin.
      rewrite !elem_of_cons, elem_of_nil in Hin.
      destruct Hin as [?|[?|[]]]; discriminate.
Qed.

Lemma ends_at_unreachable_download_data sess d fuel dir url :
  ends_at_unreachable (download_data fuel sess dir url d).
Proof.
  apply (download_data_induction (@ends_at_unreachable)).
  - intros A a. apply (ends_at_unreachable_constant _ (Ok a)). reflexivity.
  - intros A e. apply (ends_at_unreachable_constant _ (Raise e)). reflexivity.
  - intros A. apply (ends_at_unreachable_constant _ Diverge). reflexivity.
  - intros A B m k. apply ends_at_unreachable_bind.
  - intros A body handler. apply ends_at_unreachable_try.
  - intros w r w' Hrun. injection Hrun as <- <-.
    eexists. split; [reflexivity|]. left.
    intros u Hin. rewrite elem_of_cons, elem_of_nil in Hin.
    destruct Hin as [?|[]]; discriminate.
  - intros. apply ends_at_unreachable_load_or_download.
  - intros. apply ends_at_unreachable_load_or_download.
  - intros. apply ends_at_unreachable_load_or_download.
  - intros. apply ends_at_unreachable_load_or_download.
Qed.

(** A failure of [sess.get] that is no [ValueError] (no connection, a
    timeout) is fatal wherever it happens.  In a traversal, either no
    request gets [Unreachable] for an answer, or one does, and then that
    request is the last effect of the traversal, which ends with
    [ConnectionError]: no retry loop repeats it and no handler skips it.
    The failures of [sess.get] that are [ValueError]s, [Rejected], are not
    among them: the handlers catch those. *)
Theorem transport_failure_ends_the_traversal sess d fuel dir url w :
  let run := download_data fuel sess dir url d w in
  ∃ new,
    trace (snd run) = trace w ++ new
    ∧ (no_unreachable new
       ∨ fst run = Raise ConnectionError
         ∧ ∃ pre u, new = pre ++ [EvGet u Unreachable] ∧ no_unreachable pre).
Proof.
  destruct (download_data fuel sess dir url d w) as [r w'] eqn:Hrun.
  exact (ends_at_unreachable_download_data _ _ _ _ _ _ _ _ Hrun).
Qed.

(** ** The contests of one election return *)

Lemma key_eqb_sym a b : key_eqb a b = key_eqb b a.
Proof.
  destruct a, b; simpl; try reflexivity;
    solve [ apply Z.eqb_sym
          | match goal with |- Bool.eqb ?x ?y = _ => destruct x, y end;
            reflexivity
          | do 2 case_bool_decide; congruence ].
Qed.

Lemma key_eqb_refl a : hashable a = true → key_eqb a a = true.
Proof.
  destruct a; simpl; try discriminate; intros _.
  - reflexivity.
  - destruct b; reflexivity.
  - apply Z.eqb_refl.
  - apply bool_decide_eq_true_2. reflexivity.
Qed.

Lemma distinct_keys_snoc acc cc :
  distinct_keys acc = true →
  existsb (key_eqb cc) acc = false →
  distinct_keys (acc ++ [cc]) = true.
Proof.
  induction acc as [|x acc IH]; simpl; intros Hacc Hnew; [reflexivity|].
  apply andb_true_iff in Hacc as [Hx Hacc].
  apply orb_false_iff in Hnew as [Hcx Hnew].
  rewrite existsb_app. simpl. rewrite orb_false_r.
  rewrite key_eqb_sym, Hcx, orb_false_r, Hx. simpl.
  apply IH; assumption.
Qed.

Lemma set_of_cc_spec rows :
  ∀ acc w,
    distinct_keys acc = true →
    match set_of_cc rows acc w with
    | (Ok contests, w') =>
        w' = w
        ∧ distinct_keys contests = true
        ∧ (∃ more, contests = acc ++ more)
        ∧ (∀ row cc, row ∈ rows → field row "cc" = Some cc →
                     existsb (key_eqb cc) contests = true)
        ∧ (∀ c, c ∈ contests →
                c ∈ acc ∨ ∃ row, row ∈ rows ∧ field row "cc" = Some c)
    | (Raise e, w') => w' = w ∧ (e = KeyError ∨ e = TypeError)
    | (Diverge, _) => False
    end.
Proof.
  induction rows as [|row rows IH]; intros acc w Hacc; simpl.
  - split; [reflexivity|]. split; [exact Hacc|]. split.
    + exists []. rewrite app_nil_r. reflexivity.
    + split.
      * intros row cc Hin. apply elem_of_nil in Hin. contradiction.
      * intros c Hc. left. exact Hc.
  - unfold bind.
    destruct row as [| | | | |fields]; simpl; try (split; [reflexivity|]; auto).
    destruct (assoc "cc" fields) as [cc|] eqn:Hcc; simpl;
      [|split; [reflexivity|]; auto].
    destruct (hashable cc) eqn:Hhash; [|split; [reflexivity|]; auto].
    set (acc' := if existsb (key_eqb cc) acc then acc else acc ++ [cc]).
    assert (Hacc' : distinct_keys acc' = true).
    { unfold acc'. destruct (existsb (key_eqb cc) acc) eqn:Hold;
        [exact Hacc | apply distinct_keys_snoc; assumption]. }
    assert (Hin' : existsb (key_eqb cc) acc' = true).
    { unfold acc'. destruct (existsb (key_eqb cc) acc) eqn:Hold;
        [exact Hold|].
      rewrite existsb_app. simpl. rewrite key_eqb_refl by exact Hhash.
      apply orb_true_iff. right. reflexivity. }
    assert (Hext : ∃ one, acc' = acc ++ one).
    { unfold acc'. destruct (existsb (key_eqb cc) acc);
        [exists []; rewrite app_nil_r; reflexivity | eauto]. }
    assert (Hfrom : ∀ c, c ∈ acc' → c ∈ acc ∨ c = cc).
    { unfold acc'. intros c Hc. destruct (existsb (key_eqb cc) acc); [auto|].
      apply elem_of_app in Hc as [Hc|Hc]; [auto|].
      apply elem_of_cons in Hc as [Hc|Hc]; [auto|].
      apply elem_of_nil in Hc. contradiction. }
    specialize (IH acc' w Hacc').
    destruct (set_of_cc rows acc' w) as [[contests|e|] w']; [|exact IH|exact IH].
    destruct IH as (Hw & Hdistinct & (more & Hmore) & Hcomplete & Hsound).
    split; [exact Hw|]. split; [exact Hdistinct|]. split; [|split].
    + destruct Hext as (one & Hone). exists (one ++ more).
      rewrite Hmore, Hone, app_assoc. reflexivity.
    + intros row cc' Hrow Hfield.
      apply elem_of_cons in Hrow as [-> | Hrow].
      * simpl in Hfield. rewrite Hcc in Hfield. injection Hfield as <-.
        rewrite Hmore, existsb_app, Hin'. reflexivity.
      * eapply Hcomplete; eassumption.
    + intros c Hc. destruct (Hsound c Hc) as [Hold|(row & Hrow & Hfield)].
      * destruct (Hfrom c Hold) as [Hacc0 | ->]; [auto|].
        right. exists (JObj fields). split; [apply elem_of_cons; auto|].
        exact Hcc.
      * right. exists row. split; [apply elem_of_cons; auto | exact Hfield].
Qed.

(** The contests of a return (line 89).  When every row has a hashable
    [cc], the identifiers collected from the rows are pairwise different,
    each row's identifier is among them, and each of them comes from a row:
    the loop over them resolves each contest of the return once.  A row
    without [cc], or with an unhashable one, raises [KeyError] or
    [TypeError]; nothing else can happen, and the world is left as it was. *)
Theorem contests_of_a_return_are_distinct rows w :
  match set_of_cc rows [] w with
  | (Ok contests, w') =>
      w' = w
      ∧ distinct_keys contests = true
      ∧ (∀ row cc, row ∈ rows → field row "cc" = Some cc →
                   existsb (key_eqb cc) contests = true)
      ∧ (∀ c, c ∈ contests → ∃ row, row ∈ rows ∧ field row "cc" = Some c)
  | (Raise e, w') => w' = w ∧ (e = KeyError ∨ e = TypeError)
  | (Diverge, _) => False
  end.
Proof.
  pose proof (set_of_cc_spec rows [] w eq_refl) as H.
  destruct (set_of_cc rows [] w) as [[contests|e|] w']; [|exact H|exact H].
  destruct H as (Hw & Hdistinct & _ & Hcomplete & Hsound).
  split; [exact Hw|]. split; [exact Hdistinct|]. split; [exact Hcomplete|].
  intros c Hc. destruct (Hsound c Hc) as [Hnil|Hrow]; [|exact Hrow].
  apply elem_of_nil in Hnil. contradiction.
Qed.

(** ** A descriptor of the wrong shape *)

(** A descriptor that is not a dict with a dict under [srs] ends the visit
    of its node as soon as it has been resolved: [TypeError] when it is not
    a dict, [KeyError] when it has no [srs], [AttributeError] when [srs] is
    not a dict.  The error is none that a call site absorbs; no child is
    visited and no terminal data is handled; the descriptor, if it was
    fetched, stays stored. *)
Theorem malformed_descriptor_ends_the_visit sess d fuel dir url w info w1 :
  retry_forever fuel
    (load_or_download sess (info_path dir) (info_url url) d) w
    = (Ok info, w1) →
  (∀ children, field info "srs" ≠ Some (JObj children)) →
  download_data (S fuel) sess dir url d w = (Raise (srs_error info), w1)
  ∧ is_ValueError (srs_error info) = false.
Proof.
  intros Hinfo Hshape. rewrite download_data_eq, Hinfo.
  unfold visit_node, bind, srs_error.
  destruct info as [| | | | |fields]; simpl; auto.
  destruct (assoc "srs" fields) as [srs|] eqn:Hsrs; simpl; auto.
  destruct srs as [| | | | |children]; simpl; auto.
  destruct (Hshape children). simpl. exact Hsrs.
Qed.

Lemma malformed_descriptor_ends_the_visit_witness :
  download_data 2 Scenario.truncated "" "root.json" (1 # 2)
    Scenario.empty_world =
    (Raise KeyError,
     World {[ info_path "" := Json Scenario.childless ]}
       (fetched (info_path "") (info_url "root.json")
          (Body (Json Scenario.childless)) (1 # 2) Scenario.childless))
  ∧ is_ValueError KeyError = false.
Proof.
  apply (malformed_descriptor_ends_the_visit Scenario.truncated (1 # 2) 1
           "" "root.json" Scenario.empty_world Scenario.childless).
  - reflexivity.
  - intros children. simpl. discriminate.
Defined.

(** ** One document, one file *)

Lemma occurs_elem c s :
  occurs c s = true ↔ c ∈ String.list_ascii_of_string s.
Proof.
  induction s as [|c' s IH]; simpl.
  - split; [discriminate|]. intros H. apply elem_of_nil in H. contradiction.
  - rewrite orb_true_iff, elem_of_cons, IH, Ascii.eqb_eq.
    split; intros [H|H]; auto.
Qed.

Lemma occurs_of_list c l :
  occurs c (String.string_of_list_ascii l) = true ↔ c ∈ l.
Proof.
  induction l as [|c' l IH]; simpl.
  - split; [discriminate|]. intros H. apply elem_of_nil in H. contradiction.
  - rewrite orb_true_iff, elem_of_cons, IH, Ascii.eqb_eq.
    split; intros [H|H]; auto.
Qed.

Lemma drop_to_sep_elem (x : ascii) r : x ∈ Py.drop_to_sep r → x ∈ r.
Proof.
  induction r as [|c r IH]; simpl; [auto|].
  destruct (Ascii.eqb c "/"); [auto|].
  intros H. apply elem_of_cons. right. exact (IH H).
Qed.

Lemma strip_sep_elem (x : ascii) r : x ∈ Py.strip_sep r → x ∈ r.
Proof.
  induction r as [|c r IH]; simpl; [auto|].
  destruct (Ascii.eqb c "/"); [|auto].
  intros H. apply elem_of_cons. right. exact (IH H).
Qed.

(** The directory of a path has no character that the path has not. *)
Lemma occurs_dirname c p :
  occurs c (Py.os_path_dirname p) = true → occurs c p = true.
Proof.
  unfold Py.os_path_dirname. intros H. apply occurs_elem.
  apply elem_of_reverse, drop_to_sep_elem.
  destruct (Py.strip_sep (Py.drop_to_sep (reverse (String.list_ascii_of_string p))))
    as [|a l] eqn:Hstrip.
  - apply occurs_of_list in H. rewrite elem_of_reverse in H. exact H.
  - apply occurs_of_list in H. rewrite elem_of_reverse in H.
    apply strip_sep_elem. rewrite Hstrip. exact H.
Qed.

Lemma occurs_NUL_sanitised s :
  occurs NUL (Py.str_replace "*" "_" s) = occurs NUL s.
Proof.
  induction s as [|c s IH]; simpl; [reflexivity|]. rewrite IH.
  destruct (Ascii.eqb c "*") eqn:Hc; [|reflexivity].
  apply Ascii.eqb_eq in Hc. subst c. reflexivity.
Qed.

(** With a delay that is not negative and a path without NUL byte, what
    stands in the way of storing is no [ValueError]: it ends the run. *)
Lemma store_failure_ValueError d files path e done :
  (0 <= d)%Q →
  occurs NUL path = false →
  store_failure d files path = Some (e, done) →
  is_ValueError e = false.
Proof.
  intros Hd Hnul. unfold store_failure.
  apply Qle_bool_iff in Hd. rewrite Hd. simpl.
  destruct (occurs NUL (Py.os_path_dirname (Py.str_replace "*" "_" path)))
    eqn:Hdir.
  { apply occurs_dirname in Hdir. rewrite occurs_NUL_sanitised in Hdir.
    congruence. }
  rewrite occurs_NUL_sanitised, Hnul.
  case_bool_decide; [intros Heq; injection Heq as <- _; reflexivity|].
  destruct (blocked files _); [|discriminate].
  intros Heq; injection Heq as <- _; reflexivity.
Qed.

Lemma fatal_ok {A} (a : A) : ¬ fatal (Ok a).
Proof. intros (e & H & _). discriminate H. Qed.

Lemma fatal_diverge {A} : ¬ fatal (@Diverge A).
Proof. intros (e & H & _). discriminate H. Qed.

Lemma fatal_raise {A} e : fatal (@Raise A e) ↔ is_ValueError e = false.
Proof.
  split.
  - intros (e' & H & He). injection H as ->. exact He.
  - intros He. exists e. auto.
Qed.

Section One_document.

(** [sel] selects the locators of the document and [P] is its storage
    path, a path that the sanitising of line 34 leaves as it is and that
    has no NUL byte; the delay is not negative. *)
Variables (sel : string → bool) (P : string) (d : Q).
Hypothesis P_clean : Py.str_replace "*" "_" P = P.
Hypothesis P_nul : occurs NUL P = false.
Hypothesis d_pos : (0 <= d)%Q.

Lemma fetched_once_outcome {A B} w (r : outcome A) (r' : outcome B) w' :
  (fatal r → fatal r') →
  fetched_once sel P w r w' → fetched_once sel P w r' w'.
Proof.
  intros Hr (Hm & new & Ht & Hp & Hs & Hq).
  split; [exact Hm|]. exists new. intuition.
Qed.

Lemma fetched_once_refl {A} w (r : outcome A) : fetched_once sel P w r w.
Proof.
  split; [auto|]. exists []. rewrite app_nil_r. simpl.
  repeat split; auto. left. intros u j _ Hin.
  apply elem_of_nil in Hin. contradiction.
Qed.

Lemma fetched_once_trans {A B} w (r1 : outcome A) w1 (r : outcome B) w' :
  fetched_once sel P w r1 w1 →
  ¬ fatal r1 →
  fetched_once sel P w1 r w' →
  fetched_once sel P w r w'.
Proof.
  intros (M1 & n1 & T1 & Pr1 & S1 & [Q1|F1]) Hr1; [|contradiction].
  intros (M2 & n2 & T2 & Pr2 & S2 & Q2).
  split; [auto|]. exists (n1 ++ n2).
  rewrite T2, T1, <- app_assoc, responses_of_app.
  split; [reflexivity|]. split; [|split].
  - intros Hpresent. rewrite (Pr1 Hpresent), (Pr2 (M1 _ Hpresent)).
    reflexivity.
  - apply stops_at_success_app; [exact S1| |exact S2].
    intros Hex. apply responses_of_parsed in Hex as (u & j & Hu & Hin).
    apply Pr2. exact (proj2 (Q1 u j Hu Hin)).
  - destruct Q2 as [Q2|F2]; [left|right; exact F2].
    intros u j Hu Hin. apply elem_of_app in Hin as [Hin|Hin].
    + destruct (Q1 u j Hu Hin) as [Hw Hs]. split; [|exact (M2 _ Hs)].
      apply elem_of_app. left. exact Hw.
    + destruct (Q2 u j Hu Hin) as [Hw Hs]. split; [|exact Hs].
      apply elem_of_app. right. exact Hw.
Qed.

Lemma fetches_once_pure {A} (m : M A) : pure m → fetches_once sel P m.
Proof.
  intros Hm w r w' Hrun. specialize (Hm w). rewrite Hrun in Hm.
  simpl in Hm. subst w'. apply fetched_once_refl.
Qed.

Lemma fetches_once_bind {A B} (m : M A) (k : A → M B) :
  fetches_once sel P m → (∀ a, fetches_once sel P (k a)) →
  fetches_once sel P (bind m k).
Proof.
  intros Hm Hk w r w' Hrun. unfold bind in Hrun.
  destruct (m w) as [[a|e|] w1] eqn:Hfirst.
  - eapply fetched_once_trans;
      [exact (Hm _ _ _ Hfirst) | apply fatal_ok | exact (Hk a _ _ _ Hrun)].
  - injection Hrun as <- <-.
    apply (fetched_once_outcome _ (@Raise A e)); [|exact (Hm _ _ _ Hfirst)].
    intros H. apply fatal_raise. apply fatal_raise in H. exact H.
  - injection Hrun as <- <-.
    apply (fetched_once_outcome _ (@Diverge A)); [|exact (Hm _ _ _ Hfirst)].
    intros H. destruct (fatal_diverge H).
Qed.

Lemma fetches_once_try {A} (body handler : M A) :
  fetches_once sel P body → fetches_once sel P handler →
  fetches_once sel P (try_except body is_ValueError handler).
Proof.
  intros Hbody Hhandler w r w' Hrun. unfold try_except in Hrun.
  destruct (body w) as [[a|e|] w1] eqn:Hfirst.
  - injection Hrun as <- <-. exact (Hbody _ _ _ Hfirst).
  - destruct (is_ValueError e) eqn:Hcatch.
    + eapply fetched_once_trans;
        [exact (Hbody _ _ _ Hfirst) | | exact (Hhandler _ _ _ Hrun)].
      intros H. apply fatal_raise in H. congruence.
    + injection Hrun as <- <-. exact (Hbody _ _ _ Hfirst).
  - injection Hrun as <- <-. exact (Hbody _ _ _ Hfirst).
Qed.

Lemma fetches_once_for_each {A} (l : list A) (body : A → M unit) :
  (∀ x, fetches_once sel P (body x)) → fetches_once sel P (for_each l body).
Proof.
  intros Hbody. induction l as [|x l IH]; simpl.
  - apply fetches_once_pure, pure_ret.
  - apply fetches_once_bind; [apply Hbody | intros _; exact IH].
Qed.

Lemma fetches_once_attempt_once {A} (attempt : M A) :
  fetches_once sel P attempt → fetches_once sel P (attempt_once attempt).
Proof.
  intros Hattempt. unfold attempt_once. apply fetches_once_try.
  - apply fetches_once_bind; [exact Hattempt|].
    intros a. apply fetches_once_pure, pure_ret.
  - apply fetches_once_pure, pure_ret.
Qed.

Lemma fetches_once_sleep : fetches_once sel P (time_sleep RETRY_WAIT).
Proof.
  intros w r w' Hrun. injection Hrun as <- <-.
  split; [auto|]. exists [EvSleep RETRY_WAIT]. simpl.
  repeat split; auto. left. intros u j _ Hin.
  rewrite elem_of_cons, elem_of_nil in Hin.
  destruct Hin as [?|[]]; discriminate.
Qed.

(** The resolver, at a call whose locator is selected only if its path is
    [P]. *)
Lemma fetches_once_resolver sess path url :
  (sel url = true → path = P) →
  fetches_once sel P (load_or_download sess path url d).
Proof.
  intros Hsite w r w' Hrun.
  destruct (load_or_download_cases _ _ _ _ _ _ _ Hrun)
    as [(t & Hfile & -> & ->)
       |[(j & Hfile & Hresp & Hstore & -> & ->)
        |(e & done & Hfile & Hfail & -> & ->)]].
  - split; [auto|]. eexists. split; [reflexivity|]. simpl.
    repeat split; auto. left. intros u j _ Hin.
    rewrite !elem_of_cons, elem_of_nil in Hin.
    destruct Hin as [?|[?|[]]]; discriminate.
  - split.
    { simpl. intros p Hp. rewrite lookup_insert_is_Some'. right. exact Hp. }
    eexists. split; [reflexivity|]. unfold fetched. simpl.
    destruct (sel url) eqn:Hsel; simpl.
    + specialize (Hsite eq_refl). subst path.
      rewrite P_clean, lookup_insert_eq.
      repeat split; auto.
      * intros [? Hsome]. rewrite Hsome in Hfile. discriminate.
      * left. intros u j' _ Hin. rewrite !elem_of_cons, elem_of_nil in Hin.
        rewrite !elem_of_cons.
        destruct Hin as [?|[Hin|[?|[?|[?|[]]]]]]; try discriminate.
        injection Hin as _ <-. split; [tauto | eauto].
    + repeat split; auto. left. intros u j' Hu Hin.
      rewrite !elem_of_cons, elem_of_nil in Hin.
      destruct Hin as [?|[Hin|[?|[?|[?|[]]]]]]; try discriminate.
      injection Hin as -> _. congruence.
  - assert (Hdone : responses_of sel done = []
                    ∧ ∀ u j, EvGet u (Body (Json j)) ∉ done).
    { destruct (failed_fetch_done _ _ _ _ _ _ Hfail)
        as [->|(j & _ & [->| ->])]; (split; [reflexivity|]);
        intros u j' Hin; rewrite ?elem_of_cons, elem_of_nil in Hin;
        repeat (destruct Hin as [Hin|Hin]; [discriminate|]); contradiction. }
    destruct Hdone as [Hnone Hnoget].
    split; [auto|]. eexists. split; [reflexivity|]. simpl.
    destruct (sel url) eqn:Hsel; rewrite Hnone.
    + specialize (Hsite eq_refl). subst path.
      split; [intros [? Hsome]; rewrite Hsome in Hfile; discriminate|].
      split; [simpl; destruct (parsed _); reflexivity|].
      destruct (sess (requests_so_far w) url) as [[j|s]| |] eqn:Hresp.
      * right. apply fatal_raise.
        eapply store_failure_ValueError; [exact d_pos | exact P_nul |].
        exact Hfail.
      * left. intros u j' _ Hin. apply elem_of_cons in Hin as [?|Hin];
          [discriminate|]. apply elem_of_cons in Hin as [?|Hin];
          [discriminate|]. destruct (Hnoget _ _ Hin).
      * left. intros u j' _ Hin. apply elem_of_cons in Hin as [?|Hin];
          [discriminate|]. apply elem_of_cons in Hin as [?|Hin];
          [discriminate|]. destruct (Hnoget _ _ Hin).
      * left. intros u j' _ Hin. apply elem_of_cons in Hin as [?|Hin];
          [discriminate|]. apply elem_of_cons in Hin as [?|Hin];
          [discriminate|]. destruct (Hnoget _ _ Hin).
    + repeat split; auto. left. intros u j' Hu Hin.
      apply elem_of_cons in Hin as [?|Hin]; [discriminate|].
      apply elem_of_cons in Hin as [Hin|Hin]; [|destruct (Hnoget _ _ Hin)].
      injection Hin as -> _. congruence.
Qed.

End One_document.

(** ** The fetches made for one contest *)

Lemma fetches_once_download_data sess d X fuel dir url :
  Py.str_replace "*" "_" (contest_path X) = contest_path X →
  occurs NUL (contest_path X) = false →
  (0 <= d)%Q →
  fetches_once (λ u, bool_decide (u = contest_url X)) (contest_path X)
    (download_data fuel sess dir url d).
Proof.
  intros Hclean Hnul Hd.
  apply (download_data_induction
           (λ A, @fetches_once (λ u, bool_decide (u = contest_url X))
                   (contest_path X) A)).
  - intros A a. apply fetches_once_pure, pure_ret.
  - intros A e. apply fetches_once_pure. intros w. reflexivity.
  - intros A. apply fetches_once_pure. intros w. reflexivity.
  - intros A B m k. apply fetches_once_bind.
  - intros A body handler. apply fetches_once_try.
  - apply fetches_once_sleep.
  - intros dir' url'. apply fetches_once_resolver; auto.
    intros H. apply bool_decide_eq_true_1 in H.
    destruct (info_url_not_contest _ _ H).
  - intros dir' f url'. apply fetches_once_resolver; auto.
    intros H. apply bool_decide_eq_true_1 in H.
    destruct (results_url_not_contest _ _ H).
  - intros dir' url'. apply fetches_once_resolver; auto.
    intros H. apply bool_decide_eq_true_1 in H.
    destruct (results_url_not_contest _ _ H).
  - intros c. apply fetches_once_resolver; auto.
    intros H. apply bool_decide_eq_true_1 in H.
    apply contest_url_path, H.
Qed.

(** One contest, one file.  Let [X] be a contest identifier whose file
    name the sanitising leaves as it is (it has no asterisk) and has no NUL
    byte, and let the delay not be negative.  Over a whole traversal,
    whatever the upstream, the storage at the start, the fuel and the way
    the run ends:
    - no file present at the start disappears;
    - no request for [X] is made when [contests/X.json] is there at the
      start;
    - the requests for [X] stop at the first one whose body parses, so at
      most one of them succeeds (those that fail are retried);
    - the body of that request is written to [contests/X.json], which is
      there at the end, unless the run ends with an exception that is no
      [ValueError] (the directory or the file could not be made).
    Moreover, whenever the contest site returns for [X], the file
    [contests/X.json] is there, so that a later reference is a cache hit. *)
Theorem contest_fetched_until_stored sess d X :
  Py.str_replace "*" "_" (contest_path X) = contest_path X →
  occurs NUL (contest_path X) = false →
  (0 <= d)%Q →
  (∀ fuel dir url w r w',
     download_data fuel sess dir url d w = (r, w') →
     (∀ p, is_Some (fs w !! p) → is_Some (fs w' !! p))
     ∧ ∃ new,
         trace w' = trace w ++ new
         ∧ (is_Some (fs w !! contest_path X) →
            responses_for (contest_url X) new = [])
         ∧ (∀ pre r' post,
              responses_for (contest_url X) new = pre ++ r' :: post →
              parsed r' = true → post = [])
         ∧ (length (filter (λ r', parsed r' = true)
                      (responses_for (contest_url X) new)) ≤ 1)%nat
         ∧ ((∀ j, EvGet (contest_url X) (Body (Json j)) ∈ new →
                  EvWrite (contest_path X) (Json j) ∈ new
                  ∧ is_Some (fs w' !! contest_path X))
            ∨ ∃ e, r = Raise e ∧ is_ValueError e = false))
  ∧ (∀ fuel w w',
       download_contest fuel sess d X w = (Ok tt, w') →
       is_Some (fs w' !! contest_path X)).
Proof.
  intros Hclean Hnul Hd. split.
  - intros fuel dir url w r w' Hrun.
    destruct (fetches_once_download_data sess d X fuel dir url Hclean Hnul Hd
                _ _ _ Hrun)
      as (Hmono & new & Htrace & Hpresent & Hstop & Hwrite).
    split; [exact Hmono|]. exists new.
    split; [exact Htrace|]. split; [exact Hpresent|].
    split; [|split].
    + intros pre r' post Heq Hr'.
      eapply stops_at_success_last; eassumption.
    + apply stops_at_success_count, Hstop.
    + destruct Hwrite as [Hwrite|Hfatal]; [left|right; exact Hfatal].
      intros j Hin. apply (Hwrite (contest_url X) j); [|exact Hin].
      apply bool_decide_eq_true_2. reflexivity.
  - intros fuel w w' Hrun. rewrite download_contest_eq in Hrun.
    destruct (retry_forever fuel _ w) as [[j|e|] w0] eqn:Hretry;
      try discriminate.
    injection Hrun as <-.
    rewrite (retry_forever_stores _ _ _ _ _ Hclean _ _ _ Hretry). eauto.
Qed.

Lemma contest_fetched_until_stored_witness :
  let X := JStr "C1" in
  let d := (1 # 2)%Q in
  let w := Scenario.empty_world in
  let run := download_data 4 Scenario.contest_late "" "root.json" d w in
  let site := download_contest 1 Scenario.upstream d X w in
  ((∀ p, is_Some (fs w !! p) → is_Some (fs (snd run) !! p))
   ∧ ∃ new,
       trace (snd run) = trace w ++ new
       ∧ (is_Some (fs w !! contest_path X) →
          responses_for (contest_url X) new = [])
       ∧ (∀ pre r' post,
            responses_for (contest_url X) new = pre ++ r' :: post →
            parsed r' = true → post = [])
       ∧ (length (filter (λ r', parsed r' = true)
                    (responses_for (contest_url X) new)) ≤ 1)%nat
       ∧ ((∀ j, EvGet (contest_url X) (Body (Json j)) ∈ new →
                EvWrite (contest_path X) (Json j) ∈ new
                ∧ is_Some (fs (snd run) !! contest_path X))
          ∨ ∃ e, fst run = Raise e ∧ is_ValueError e = false))
  ∧ is_Some (fs (snd site) !! contest_path X).
Proof.
  intros X d w run site.
  assert (Hd : (0 <= d)%Q) by (unfold Qle; simpl; lia).
  split.
  - exact (proj1 (contest_fetched_until_stored Scenario.contest_late d X
                    eq_refl eq_refl Hd)
             4 "" "root.json" w (fst run) (snd run) eq_refl).
  - exact (proj2 (contest_fetched_until_stored Scenario.upstream d X
                    eq_refl eq_refl Hd)
             1 w (snd site) eq_refl).
Defined.

(** ** The certificates of one node *)

Lemma fetches_once_download_coc sess d dir coc :
  Py.str_replace "*" "_" (coc_path dir) = coc_path dir →
  occurs NUL (coc_path dir) = false →
  (0 <= d)%Q →
  fetches_once (λ _, true) (coc_path dir) (download_coc sess dir d coc).
Proof.
  intros Hclean Hnul Hd. unfold download_coc.
  apply fetches_once_bind; [apply fetches_once_pure, pure_getitem | intros vbs].
  apply fetches_once_bind; [apply fetches_once_pure, pure_py_len | intros n].
  apply fetches_once_bind; [apply fetches_once_pure, pure_py_assert | intros _].
  apply fetches_once_bind; [apply fetches_once_pure, pure_getitem | intros vbs'].
  apply fetches_once_bind; [apply fetches_once_pure, pure_getitem0 | intros vb].
  apply fetches_once_bind; [apply fetches_once_pure, pure_getitem | intros url].
  apply fetches_once_bind;
    [apply fetches_once_pure, pure_add_json_suffix | intros url'].
  apply fetches_once_bind.
  - apply fetches_once_attempt_once.
    apply fetches_once_resolver; auto.
  - intros _. apply fetches_once_pure, pure_ret.
Qed.

(** The certificates of a node (lines 110-118) all go to the one path
    [<node>/coc.json].  When that path has no asterisk and no NUL byte and
    the delay is not negative, the loop over them makes requests only
    while the file is absent, none at all when it is there at the start,
    and stops requesting at the first response that parses: at most one
    certificate is fetched.  It is stored at [<node>/coc.json] and every
    reference after it is answered from the file, unless the loop ends
    with an exception that is no [ValueError] (the directory or the file
    could not be made). *)
Theorem certificates_are_stored_once sess d dir cocs w :
  Py.str_replace "*" "_" (coc_path dir) = coc_path dir →
  occurs NUL (coc_path dir) = false →
  (0 <= d)%Q →
  let run := for_each cocs (download_coc sess dir d) w in
  ∃ new,
    trace (snd run) = trace w ++ new
    ∧ (is_Some (fs w !! coc_path dir) → responses new = [])
    ∧ (∀ pre r post,
         responses new = pre ++ r :: post → parsed r = true → post = [])
    ∧ (length (filter (λ r, parsed r = true) (responses new)) ≤ 1)%nat
    ∧ ((∀ u j, EvGet u (Body (Json j)) ∈ new →
               EvWrite (coc_path dir) (Json j) ∈ new
               ∧ is_Some (fs (snd run) !! coc_path dir))
       ∨ ∃ e, fst run = Raise e ∧ is_ValueError e = false).
Proof.
  intros Hclean Hnul Hd.
  destruct (for_each cocs (download_coc sess dir d) w) as [r w'] eqn:Hrun.
  simpl.
  assert (Hinv : fetched_once (λ _, true) (coc_path dir) w r w').
  { revert Hrun. apply fetches_once_for_each.
    intros coc. apply fetches_once_download_coc; assumption. }
  destruct Hinv as (_ & new & Htrace & Hpresent & Hstop & Hwrite).
  exists new. split; [exact Htrace|]. split; [exact Hpresent|].
  split; [|split].
  - intros pre r' post Heq Hr'. eapply stops_at_success_last; eassumption.
  - apply stops_at_success_count, Hstop.
  - destruct Hwrite as [Hwrite|Hfatal]; [left|right; exact Hfatal].
    intros u j Hin. exact (Hwrite u j eq_refl Hin).
Qed.

Lemma certificates_are_stored_once_witness :
  let d := (1 # 2)%Q in
  let cocs := [Scenario.reference "c1" "coc1";
               Scenario.reference "c2" "coc2"] in
  let w := Scenario.empty_world in
  let run := for_each cocs (download_coc Scenario.two_certificates "A" d) w in
  ∃ new,
    trace (snd run) = trace w ++ new
    ∧ (is_Some (fs w !! coc_path "A") → responses new = [])
    ∧ (∀ pre r post,
         responses new = pre ++ r :: post → parsed r = true → post = [])
    ∧ (length (filter (λ r, parsed r = true) (responses new)) ≤ 1)%nat
    ∧ ((∀ u j, EvGet u (Body (Json j)) ∈ new →
               EvWrite (coc_path "A") (Json j) ∈ new
               ∧ is_Some (fs (snd run) !! coc_path "A"))
       ∨ ∃ e, fst run = Raise e ∧ is_ValueError e = false).
Proof.
  intros d cocs w.
  assert (Hd : (0 <= d)%Q) by (unfold Qle; simpl; lia).
  exact (certificates_are_stored_once Scenario.two_certificates d "A" cocs w
           eq_refl eq_refl Hd).
Defined.

(** ** Names that become path components *)

Lemma str_replace_length a b s :
  String.length (Py.str_replace a b s) = String.length s.
Proof. induction s as [|c s IH]; simpl; [reflexivity | rewrite IH; reflexivity]. Qed.

Lemma occurs_startswith s :
  occurs "/" s = false → Py.startswith "/" s = false.
Proof.
  destruct s as [|c s]; [reflexivity|].
  change (occurs "/" (String c s))
    with (Ascii.eqb c "/" || occurs "/" s).
  change (Py.startswith "/" (String c s))
    with (Ascii.eqb "/" c && Py.startswith "" s).
  intros H. apply orb_false_iff in H as [H _].
  rewrite Ascii.eqb_sym, H. reflexivity.
Qed.




(** The directory of a child (lines 70-72).  Whatever the name of the
    child, the recursive call gets the directory of the parent followed by
    one more component, which has the length of the name and no separator
    in it: a name cannot add a level, and it cannot leave the directory of
    its parent. *)
Theorem child_directory_is_one_level_below recur dir child rn u w :
  field child "rn" = Some (JStr rn) →
  field child "url" = Some (JStr u) →
  ∃ segment,
    occurs "/" segment = false
    ∧ String.length segment = String.length rn
    ∧ visit_child recur dir child w =
      recur (if bool_decide (dir = "") || Py.endswith_sep dir
             then dir +:+ segment
             else dir +:+ "/" +:+ segment)
        (u +:+ ".json") w.
Proof.
  intros Hrn Hu. exists (Py.str_replace "/" "_" rn).
  assert (Hfree : occurs "/" (Py.str_replace "/" "_" rn) = false)
    by (apply occurs_str_replace; discriminate).
  split; [exact Hfree|]. split; [apply str_replace_length|].
  rewrite (visit_child_eq _ _ _ rn u) by assumption.
  unfold Py.os_path_join. simpl. unfold Py.join2.
  rewrite (occurs_startswith _ Hfree). reflexivity.
Qed.

Lemma child_directory_is_one_level_below_witness :
  let child := JObj [("rn", JStr "A/B"); ("url", JStr "a")] in
  let recur := λ dir url,
    download_data 1 Scenario.upstream dir url (1 # 2) in
  ∃ segment,
    occurs "/" segment = false
    ∧ String.length segment = String.length "A/B"
    ∧ visit_child recur "NCR" child Scenario.empty_world =
      recur (if bool_decide ("NCR" = "") || Py.endswith_sep "NCR"
             then "NCR" +:+ segment
             else "NCR" +:+ "/" +:+ segment)
        ("a" +:+ ".json") Scenario.empty_world.
Proof.
  intros child recur.
  exact (child_directory_is_one_level_below recur "NCR" child "A/B" "a"
           Scenario.empty_world eq_refl eq_refl).
Defined.






(** ** The tree of descriptors is materialised *)

Lemma grows_constant {A} (m : M A) r : (∀ w, m w = (r, w)) → grows m.
Proof.
  intros Hm w r' w' Hrun. rewrite Hm in Hrun. injection Hrun as <- <-.
  exists []. rewrite app_nil_r. split; reflexivity.
Qed.

Lemma grows_then {A B} (first : M A) (rest : M B) w r1 w1 r w' :
  grows first → grows rest →
  first w = (r1, w1) → rest w1 = (r, w') →
  ∃ new, trace w' = trace w ++ new ∧ (Forall probe_clean new → fs w ⊆ fs w').
Proof.
  intros Hfirst Hrest H1 H2.
  destruct (Hfirst _ _ _ H1) as (n1 & Ht1 & G1).
  destruct (Hrest _ _ _ H2) as (n2 & Ht2 & G2).
  exists (n1 ++ n2). rewrite Ht2, Ht1, app_assoc. split; [reflexivity|].
  intros Hclean. apply Forall_app in Hclean as [C1 C2].
  etrans; [apply G1, C1 | apply G2, C2].
Qed.

Lemma grows_bind {A B} (m : M A) (k : A → M B) :
  grows m → (∀ a, grows (k a)) → grows (bind m k).
Proof.
  intros Hm Hk w r w' Hrun. unfold bind in Hrun.
  destruct (m w) as [[a|e|] w1] eqn:Hfirst.
  - eapply (grows_then m (k a)); eauto.
  - injection Hrun as <- <-. destruct (Hm _ _ _ Hfirst) as (n & Ht & G). eauto.
  - injection Hrun as <- <-. destruct (Hm _ _ _ Hfirst) as (n & Ht & G). eauto.
Qed.

Lemma grows_try {A} (body handler : M A) catches :
  grows body → grows handler → grows (try_except body catches handler).
Proof.
  intros Hbody Hhandler w r w' Hrun. unfold try_except in Hrun.
  destruct (body w) as [[a|e|] w1] eqn:Hfirst.
  - injection Hrun as <- <-. eapply Hbody, Hfirst.
  - destruct (catches e).
    + eapply (grows_then body handler); eauto.
    + injection Hrun as <- <-. eapply Hbody, Hfirst.
  - injection Hrun as <- <-. eapply Hbody, Hfirst.
Qed.

Lemma grows_sleep q : grows (time_sleep q).
Proof.
  intros w r w' Hrun. unfold time_sleep in Hrun.
  destruct (Qle_bool 0 q); injection Hrun as <- <-;
    [|exists []; rewrite app_nil_r; split; reflexivity].
  eexists. split; reflexivity.
Qed.

Lemma grows_load_or_download sess path url d :
  grows (load_or_download sess path url d).
Proof.
  intros w r w' Hrun.
  destruct (load_or_download_cases _ _ _ _ _ _ _ Hrun)
    as [(t & Hfile & -> & ->)
       |[(j & Hfile & Hresp & Hstore & -> & ->)
        |(e & done & Hfile & Hfail & -> & ->)]];
    (eexists; split; [reflexivity|]); intros Hclean; try reflexivity.
  apply Forall_cons in Hclean as [Hpath _]. simpl in Hpath.
  simpl. rewrite Hpath. apply insert_subseteq, Hfile.
Qed.

Lemma grows_ret A (a : A) : grows (ret a).
Proof. apply (grows_constant _ (Ok a)). reflexivity. Qed.

Lemma grows_raise A e : grows (@raise A e).
Proof. apply (grows_constant _ (Raise e)). reflexivity. Qed.

Lemma grows_diverge A : grows (@diverge A).
Proof. apply (grows_constant _ Diverge). reflexivity. Qed.

Lemma grows_download_data sess d fuel dir url :
  grows (download_data fuel sess dir url d).
Proof.
  apply (download_data_induction (@grows) grows_ret grows_raise grows_diverge
           (@grows_bind) (λ A body handler, grows_try body handler _)
           (grows_sleep _));
    intros; apply grows_load_or_download.
Qed.

Lemma grows_terminal_data sess d fuel dir info :
  grows (terminal_data fuel sess dir d info).
Proof.
  apply (P_terminal_data (@grows) grows_ret grows_raise grows_diverge
           (@grows_bind) (λ A body handler, grows_try body handler _)
           (grows_sleep _));
    intros; apply grows_load_or_download.
Qed.

(** When the retry loop returns a descriptor after clean probes, the
    descriptor is in the file at its path. *)
Lemma retry_forever_resolves sess path url d fuel :
  ∀ w j w1,
    retry_forever fuel (load_or_download sess path url d) w = (Ok j, w1) →
    ∃ new,
      trace w1 = trace w ++ new
      ∧ (Forall probe_clean new →
         fs w ⊆ fs w1 ∧ fs w1 !! path = Some (Json j)).
Proof.
  induction fuel as [|fuel IH]; intros w j w1 Hrun; [discriminate|].
  rewrite retry_forever_step in Hrun.
  destruct (load_or_download sess path url d w) as [[j0|e|] w0] eqn:Hload;
    [|destruct (is_ValueError e) eqn:He|]; try discriminate.
  - injection Hrun as <- <-.
    destruct (fs w !! path) as [t|] eqn:Hfile.
    + rewrite (load_or_download_hit _ _ _ _ _ _ Hfile) in Hload.
      destruct t as [j1|s]; simpl in Hload; [|discriminate].
      injection Hload as <- <-. eexists. split; [reflexivity|].
      intros _. split; [reflexivity | exact Hfile].
    + rewrite (load_or_download_miss _ _ _ _ _ Hfile) in Hload.
      simpl in Hload.
      destruct (sess (requests_so_far w) url) as [[j1|s]| |];
        try discriminate.
      destruct (store_failure d (fs w) path) as [[e done]|];
        try discriminate.
      injection Hload as <- <-. eexists. split; [reflexivity|].
      intros Hclean. apply Forall_cons in Hclean as [Hpath _].
      simpl in Hpath. simpl. rewrite Hpath.
      split; [apply insert_subseteq, Hfile | apply lookup_insert_eq].
  - destruct (IH _ _ _ Hrun) as (n2 & Ht2 & H2).
    destruct (grows_load_or_download _ _ _ _ _ _ _ Hload) as (n1 & Ht1 & G1).
    exists (n1 ++ [EvSleep RETRY_WAIT] ++ n2).
    rewrite Ht2. unfold log; simpl. rewrite Ht1, <- !app_assoc.
    split; [reflexivity|]. intros Hclean.
    apply Forall_app in Hclean as [C1 Hclean].
    apply Forall_cons in Hclean as [_ C2].
    destruct (H2 C2) as [S2 F2]. split; [|exact F2].
    etrans; [apply G1, C1 | exact S2].
Qed.

Lemma for_each_ok_cons {A} (x : A) l (body : A → M unit) w w' :
  for_each (x :: l) body w = (Ok tt, w') →
  ∃ wx, body x w = (Ok tt, wx) ∧ for_each l body wx = (Ok tt, w').
Proof.
  simpl. unfold bind. destruct (body x w) as [[[]|e|] wx]; try discriminate.
  eauto.
Qed.

Lemma visit_child_ok recur dir child w w' :
  visit_child recur dir child w = (Ok tt, w') →
  ∃ rn u,
    field child "rn" = Some (JStr rn)
    ∧ field child "url" = Some (JStr u)
    ∧ recur (Py.os_path_join dir [Py.str_replace "/" "_" rn])
        (u +:+ ".json") w = (Ok tt, w').
Proof.
  unfold visit_child, bind, getitem.
  destruct child as [| | | | |fields]; try discriminate. simpl.
  destruct (assoc "rn" fields) as [rn|]; [|discriminate].
  destruct rn as [| | |rn| |]; try discriminate. simpl.
  destruct (assoc "url" fields) as [u|]; [|discriminate].
  destruct u as [| | |u| |]; try discriminate. simpl.
  eauto.
Qed.

Lemma visit_node_ok recur fuel sess dir d info w w' :
  visit_node recur fuel sess dir d info w = (Ok tt, w') →
  ∃ children w2,
    field info "srs" = Some (JObj children)
    ∧ for_each (map snd children) (visit_child recur dir) w = (Ok tt, w2)
    ∧ terminal_data fuel sess dir d info w2 = (Ok tt, w').
Proof.
  unfold visit_node, bind, getitem.
  destruct info as [| | | | |fields]; try discriminate. simpl.
  destruct (assoc "srs" fields) as [srs|]; [|discriminate].
  destruct srs as [| | | | |children]; try discriminate. simpl.
  destruct (for_each (map snd children) (visit_child recur dir) w)
    as [[[]|e|] w2] eqn:Hloop; try discriminate.
  intros Hterminal. exists children, w2. auto.
Qed.

Lemma materialised_mono depth :
  ∀ files files' dir,
    files ⊆ files' → materialised depth files dir →
    materialised depth files' dir.
Proof.
  induction depth as [|depth IH]; intros files files' dir Hsub; simpl;
    [auto|].
  intros (info & children & Hfile & Hsrs & Hchildren).
  exists info, children. split; [eapply lookup_weaken; eassumption|].
  split; [exact Hsrs|]. intros child Hchild.
  destruct (Hchildren child Hchild) as (rn & u & Hrn & Hu & Hbelow).
  exists rn, u. eauto.
Qed.

Lemma grows_children sess d fuel dir l :
  grows (for_each l
           (visit_child (λ dir' url', download_data fuel sess dir' url' d)
              dir)).
Proof.
  apply (P_for_each (@grows) grows_ret (@grows_bind)). intros child.
  apply (P_visit_child (@grows) grows_ret grows_raise (@grows_bind)).
  intros dir' url'. apply grows_download_data.
Qed.

Lemma children_materialised sess d fuel dir :
  (∀ dir' url' w w' new,
     download_data fuel sess dir' url' d w = (Ok tt, w') →
     trace w' = trace w ++ new →
     Forall probe_clean new →
     materialised fuel (fs w') dir') →
  ∀ l w w' new,
    for_each l
      (visit_child (λ dir' url', download_data fuel sess dir' url' d) dir) w
      = (Ok tt, w') →
    trace w' = trace w ++ new →
    Forall probe_clean new →
    ∀ child, child ∈ l →
      ∃ rn u,
        field child "rn" = Some (JStr rn)
        ∧ field child "url" = Some (JStr u)
        ∧ materialised fuel (fs w')
            (Py.os_path_join dir [Py.str_replace "/" "_" rn]).
Proof.
  intros IHfuel. induction l as [|x l IH]; intros w w' new Hrun Htrace Hclean
    child Hin.
  - apply elem_of_nil in Hin. contradiction.
  - apply for_each_ok_cons in Hrun as (wx & Hx & Hrest).
    destruct (grows_children _ _ _ _ _ _ _ _ Hrest) as (nl & Htl & Gl).
    pose proof Hx as Hvisit.
    apply visit_child_ok in Hvisit as (rn & u & Hrn & Hu & Hvisit).
    destruct (grows_download_data _ _ _ _ _ _ _ _ Hvisit) as (nx & Htx & Gx).
    assert (new = nx ++ nl) as ->.
    { rewrite Htl, Htx, <- app_assoc in Htrace.
      eapply app_inv_head, eq_sym, Htrace. }
    apply Forall_app in Hclean as [Cx Cl].
    apply elem_of_cons in Hin as [-> | Hin].
    + exists rn, u. split; [exact Hrn|]. split; [exact Hu|].
      eapply materialised_mono; [apply Gl, Cl|].
      eapply IHfuel; eassumption.
    + eapply IH; eassumption.
Qed.

(** The traversal materialises the tree it discovers.  When a run returns
    and every path it probed was free of asterisks, the descriptor of the
    node it started from is stored at that node's [info.json], names its
    children in [srs], and the same holds of each child, in the directory
    that the child's sanitised name gives, and so on down the tree. *)
Theorem descriptors_are_materialised sess d fuel :
  ∀ dir url w w' new,
    download_data fuel sess dir url d w = (Ok tt, w') →
    trace w' = trace w ++ new →
    Forall probe_clean new →
    materialised fuel (fs w') dir.
Proof.
  induction fuel as [|fuel IH]; intros dir url w w' new Hrun Htrace Hclean;
    [discriminate|].
  rewrite download_data_eq in Hrun.
  destruct (retry_forever fuel _ w) as [[info|e|] w1] eqn:Hretry;
    try discriminate.
  apply visit_node_ok in Hrun as (children & w2 & Hsrs & Hloop & Hterminal).
  destruct (retry_forever_resolves _ _ _ _ _ _ _ _ Hretry)
    as (n1 & Ht1 & H1).
  destruct (grows_children _ _ _ _ _ _ _ _ Hloop) as (n2 & Ht2 & G2).
  destruct (grows_terminal_data _ _ _ _ _ _ _ _ Hterminal) as (n3 & Ht3 & G3).
  assert (new = n1 ++ n2 ++ n3) as ->.
  { rewrite Ht3, Ht2, Ht1, <- !app_assoc in Htrace.
    eapply app_inv_head, eq_sym, Htrace. }
  apply Forall_app in Hclean as [C1 Hclean].
  apply Forall_app in Hclean as [C2 C3].
  destruct (H1 C1) as [_ Hfile].
  simpl. exists info, children. split; [|split; [exact Hsrs|]].
  - eapply lookup_weaken; [exact Hfile|].
    etrans; [apply G2, C2 | apply G3, C3].
  - intros child Hchild.
    destruct (children_materialised sess d fuel dir IH _ _ _ _ Hloop Ht2 C2
                child Hchild) as (rn & u & Hrn & Hu & Hbelow).
    exists rn, u. split; [exact Hrn|]. split; [exact Hu|].
    eapply materialised_mono; [apply G3, C3 | exact Hbelow].
Qed.

Lemma descriptors_are_materialised_witness :
  let run := download_data 4 Scenario.upstream "" "root.json" (1 # 2)
               Scenario.empty_world in
  materialised 4 (fs (snd run)) "".
Proof.
  intros run.
  apply (descriptors_are_materialised Scenario.upstream (1 # 2) 4
           "" "root.json" Scenario.empty_world (snd run) (trace (snd run))).
  - vm_compute. exact eq_refl.
  - reflexivity.
  - vm_compute.
    repeat (constructor; [first [reflexivity | exact I] |]). constructor.
Defined.

(** ** More fuel changes nothing in a run that ends *)

Lemma refines_refl {A} (m : M A) : refines m m.
Proof. intros w r w' Hrun _. exact Hrun. Qed.

Lemma refines_bind {A B} (m1 m2 : M A) (k1 k2 : A → M B) :
  refines m1 m2 → (∀ a, refines (k1 a) (k2 a)) →
  refines (bind m1 k1) (bind m2 k2).
Proof.
  intros Hm Hk w r w' Hrun Hr. unfold bind in *.
  destruct (m1 w) as [[a|e|] w1] eqn:Hfirst.
  - rewrite (Hm _ _ _ Hfirst) by discriminate. apply Hk; assumption.
  - rewrite (Hm _ _ _ Hfirst) by discriminate. exact Hrun.
  - injection Hrun as <- <-. contradiction.
Qed.

Lemma refines_try {A} (body1 body2 handler1 handler2 : M A) catches :
  refines body1 body2 → refines handler1 handler2 →
  refines (try_except body1 catches handler1)
    (try_except body2 catches handler2).
Proof.
  intros Hbody Hhandler w r w' Hrun Hr. unfold try_except in *.
  destruct (body1 w) as [[a|e|] w1] eqn:Hfirst.
  - rewrite (Hbody _ _ _ Hfirst) by discriminate. exact Hrun.
  - rewrite (Hbody _ _ _ Hfirst) by discriminate.
    destruct (catches e); [apply Hhandler; assumption | exact Hrun].
  - injection Hrun as <- <-. contradiction.
Qed.

Lemma refines_for_each {A} (l : list A) (body1 body2 : A → M unit) :
  (∀ x, refines (body1 x) (body2 x)) →
  refines (for_each l body1) (for_each l body2).
Proof.
  intros Hbody. induction l as [|x l IH]; simpl; [apply refines_refl|].
  apply refines_bind; [apply Hbody | intros _; exact IH].
Qed.

Lemma refines_retry {A} (attempt : M A) n :
  ∀ m, (n ≤ m)%nat →
       refines (retry_forever n attempt) (retry_forever m attempt).
Proof.
  induction n as [|n IH]; intros m Hle.
  - intros w r w' Hrun Hr. injection Hrun as <- <-. contradiction.
  - destruct m as [|m]; [lia|]. simpl.
    apply refines_try; [apply refines_refl|].
    apply refines_bind; [apply refines_refl|].
    intros _. apply IH. lia.
Qed.

Lemma refines_download_contest sess d c n m :
  (n ≤ m)%nat →
  refines (download_contest n sess d c) (download_contest m sess d c).
Proof.
  intros Hle. unfold download_contest.
  apply refines_bind; [apply refines_retry, Hle | intros _; apply refines_refl].
Qed.

Lemma refines_download_contests_of sess d results n m :
  (n ≤ m)%nat →
  refines (download_contests_of n sess d results)
    (download_contests_of m sess d results).
Proof.
  intros Hle. unfold download_contests_of.
  do 3 (apply refines_bind; [apply refines_refl | intro]).
  apply refines_for_each. intros c. apply refines_download_contest, Hle.
Qed.

Lemma refines_download_precinct sess dir d precinct n m :
  (n ≤ m)%nat →
  refines (download_precinct n sess dir d precinct)
    (download_precinct m sess dir d precinct).
Proof.
  intros Hle. unfold download_precinct.
  do 10 (apply refines_bind; [apply refines_refl | intro]).
  match goal with |- refines (match ?r with _ => _ end) _ => destruct r end.
  - apply refines_download_contests_of, Hle.
  - apply refines_refl.
Qed.

Lemma refines_terminal_data sess dir d info n m :
  (n ≤ m)%nat →
  refines (terminal_data n sess dir d info) (terminal_data m sess dir d info).
Proof.
  intros Hle. unfold terminal_data.
  apply refines_bind; [apply refines_refl | intros can].
  destruct (eq_str can "Barangay"); [|apply refines_refl].
  do 2 (apply refines_bind; [apply refines_refl | intro]).
  apply refines_for_each. intros p. apply refines_download_precinct, Hle.
Qed.

Lemma refines_download_data sess d n :
  ∀ m dir url,
    (n ≤ m)%nat →
    refines (download_data n sess dir url d) (download_data m sess dir url d).
Proof.
  induction n as [|n IH]; intros m dir url Hle.
  - intros w r w' Hrun Hr. injection Hrun as <- <-. contradiction.
  - destruct m as [|m]; [lia|]. simpl.
    apply refines_bind; [apply refines_retry; lia | intros info].
    unfold visit_node.
    do 2 (apply refines_bind; [apply refines_refl | intro]).
    apply refines_bind.
    + apply refines_for_each. intros child. unfold visit_child.
      do 4 (apply refines_bind; [apply refines_refl | intro]).
      apply IH. lia.
    + intros _. apply refines_terminal_data. lia.
Qed.

(** The bound on the turns of the retry loops and on the depth of the
    recursion does not shape a run that ends: a traversal that returns or
    raises within some bound does the same, with the same effects, within
    any larger one. *)
Theorem enough_fuel_is_enough sess d n m dir url w r w' :
  (n ≤ m)%nat →
  download_data n sess dir url d w = (r, w') →
  r ≠ Diverge →
  download_data m sess dir url d w = (r, w').
Proof. intros Hle Hrun Hr. eapply refines_download_data; eassumption. Qed.

Lemma enough_fuel_is_enough_witness :
  download_data 9 Scenario.upstream "" "root.json" (1 # 2)
    Scenario.empty_world =
  (fst (download_data 4 Scenario.upstream "" "root.json" (1 # 2)
          Scenario.empty_world),
   snd (download_data 4 Scenario.upstream "" "root.json" (1 # 2)
          Scenario.empty_world)).
Proof.
  apply (enough_fuel_is_enough Scenario.upstream (1 # 2) 4 9).
  - lia.
  - apply surjective_pairing.
  - vm_compute. discriminate.
Defined.
